(** * Verification of [db/plugins.py] (vim-awesome)

    A shallow embedding of the plugin table utilities: slug generation,
    authority-based merging of scraped records, ingestion of scraped data
    and construction of the in-memory search index.

    Python dictionaries are finite maps from field names to dynamically
    typed values; exceptions are an explicit error type; the RethinkDB
    table and the logging sink are threaded as explicit state. *)

From Stdlib Require Import ZArith String Ascii List Sorted Permutation Lia.
From stdpp Require Import base option gmap strings list fin_maps sets.

Local Open Scope string_scope.
Local Open Scope Z_scope.

(* ===================================================================== *)
(** * Python values                                                       *)
(* ===================================================================== *)

Module Py.

(** The JSON-like values that plugin documents hold: [None], integers
    (Python 2 [int]/[long], unbounded), text ([str] or [unicode]) and
    lists. *)
#[warnings="-register-all"]
Inductive value : Type :=
  | VNone
  | VInt (z : Z)
  | VStr (s : string)
  | VList (l : list value).

(** Python's [==] on values. *)
Fixpoint value_eqb (a b : value) {struct a} : bool :=
  match a, b with
  | VNone, VNone => true
  | VInt x, VInt y => Z.eqb x y
  | VStr s, VStr t => String.eqb s t
  | VList l, VList m =>
      (fix go (l m : list value) {struct l} : bool :=
         match l, m with
         | [], [] => true
         | x :: l', y :: m' => value_eqb x y && go l' m'
         | _, _ => false
         end) l m
  | _, _ => false
  end.

(** Python's truth value of an object ([bool(v)], [if v], [v or w]). *)
Definition truthy (v : value) : bool :=
  match v with
  | VNone => false
  | VInt z => negb (Z.eqb z 0)
  | VStr s => negb (String.eqb s "")
  | VList l => match l with [] => false | _ => true end
  end.

(** [a or b]. *)
Definition py_or (a b : value) : value := if truthy a then a else b.

(** Python 2 orders all objects: [None] is smaller than anything, numbers
    are smaller than the other types, and the remaining types are ordered
    by type name (["list" < "str"]); integers compare numerically, text
    bytewise and lists lexicographically. *)
Fixpoint py_cmp (a b : value) {struct a} : comparison :=
  match a, b with
  | VNone, VNone => Eq
  | VNone, _ => Lt
  | _, VNone => Gt
  | VInt x, VInt y => Z.compare x y
  | VInt _, _ => Lt
  | _, VInt _ => Gt
  | VList l, VList m =>
      (fix go (l m : list value) {struct l} : comparison :=
         match l, m with
         | [], [] => Eq
         | [], _ :: _ => Lt
         | _ :: _, [] => Gt
         | x :: l', y :: m' =>
             match py_cmp x y with Eq => go l' m' | c => c end
         end) l m
  | VList _, VStr _ => Lt
  | VStr _, VList _ => Gt
  | VStr s, VStr t => String.compare s t
  end.

(** [a > b] and [a < b]. *)
Definition py_gt (a b : value) : bool :=
  match py_cmp a b with Gt => true | _ => false end.
Definition py_lt (a b : value) : bool :=
  match py_cmp a b with Lt => true | _ => false end.

(** [max(a, b)] keeps the first argument unless the second is greater;
    [min(a, b)] keeps the first unless the second is smaller. *)
Definition py_max (a b : value) : value := if py_gt b a then b else a.
Definition py_min (a b : value) : value := if py_lt b a then b else a.

End Py.

(* ===================================================================== *)
(** * Plugin documents and the merge of scraped records                   *)
(* ===================================================================== *)

Module Plugins.
Import Py.

(** A plugin document is a [dict] from field names to values. *)
Abbreviation plugin := (gmap string value).

(** [d.get(k)], which yields [None] for a missing key. *)
Definition get (d : plugin) (k : string) : value := default VNone (d !! k).

(** [d.get(k, dflt)]. *)
Definition get_default (d : plugin) (k : string) (dflt : value) : value :=
  default dflt (d !! k).

(** Exceptions raised by the module.  [AssertionError] is the failed
    [assert name] of slug generation (the spec's InvalidInput),
    [TooManyCollisions] the "we need more song titles" exception (the
    spec's SlugSpaceExhausted) and [UntokenizableType] the "Field ... has
    untokenizable type" exception (the spec's UntokenizableField).  The
    other three are raised by the interpreter itself: a method or operator
    applied to a value of the wrong type, and a missing key under [d[k]]. *)
Inductive error : Type :=
  | AssertionError
  | TooManyCollisions (name : string)
  | UntokenizableType (field : string)
  | AttributeError
  | TypeError
  | KeyError (key : string).

Inductive result (A : Type) : Type :=
  | Ok (a : A)
  | Raise (e : error).
Arguments Ok {A} a.
Arguments Raise {A} e.

(** Sequencing of computations that may raise: [x ← m; k] runs [k] on the
    value of [m] and propagates the exception of [m] otherwise. *)
#[global] Instance result_bind : MBind result :=
  λ A B (f : A → result B) (m : result A),
    match m with
    | Ok a => f a
    | Raise e => Raise e
    end.

#[global] Instance result_ret : MRet result := λ A (a : A), Ok a.

(** [d[k]]. *)
Definition subscript (d : plugin) (k : string) : result value :=
  match d !! k with
  | Some v => Ok v
  | None => Raise (KeyError k)
  end.

(** ** [is_more_authoritative]

    The subscripts [repo1['github_url']] and [repo2['github_url']] are
    evaluated only after both [get]s were truthy, so the keys exist and
    the subscripts read what [get] reads. *)
Definition is_more_authoritative (repo1 repo2 : plugin) : bool :=
  if truthy (get repo1 "github_url") && truthy (get repo2 "github_url")
     && negb (value_eqb (get repo1 "github_url") (get repo2 "github_url"))
  then
    if py_gt (get_default repo1 "updated_at" (VInt 0))
             (get_default repo2 "updated_at" (VInt 0))
    then true
    else if value_eqb (get_default repo1 "updated_at" (VInt 0))
                      (get_default repo2 "updated_at" (VInt 0))
    then py_gt (get_default repo1 "github_stars" (VInt 0))
               (get_default repo2 "github_stars" (VInt 0))
    else false
  else false.

(** ** [_merge_dict_except_none]

    [dict(dict_a, **dict_b_filtered)]: the entries of [dict_b] whose value
    is not [None] laid over [dict_a]. *)
Definition is_not_none (v : value) : bool :=
  match v with VNone => false | _ => true end.

Definition _merge_dict_except_none (dict_a dict_b : plugin) : plugin :=
  let dict_b_filtered :=
    filter (λ kv : string * value, is_not_none kv.2 = true) dict_b in
  dict_b_filtered ∪ dict_a.

(** ** [update_plugin]

    The two guarded assignments subscript [old_plugin] and [new_plugin]
    under a truthy [get] of the same key, so they cannot raise. *)
Definition update_plugin (old_plugin new_plugin : plugin) : plugin :=
  let updated_plugin :=
    if is_more_authoritative old_plugin new_plugin
    then _merge_dict_except_none new_plugin old_plugin
    else _merge_dict_except_none old_plugin new_plugin in
  let updated_plugin :=
    if truthy (get old_plugin "updated_at")
       && truthy (get new_plugin "updated_at")
    then <["updated_at" :=
             py_max (get old_plugin "updated_at") (get new_plugin "updated_at")]>
           updated_plugin
    else updated_plugin in
  let updated_plugin :=
    if truthy (get old_plugin "created_at")
       && truthy (get new_plugin "created_at")
    then <["created_at" :=
             py_min (get old_plugin "created_at") (get new_plugin "created_at")]>
           updated_plugin
    else updated_plugin in
  updated_plugin.

(* ===================================================================== *)
(** * The plugins table, slug generation and ingestion                    *)
(* ===================================================================== *)

(** Defaults of [_ROW_SCHEMA].  Its ['slug'] entry holds a
    [RequiredProperty] marker object; [insert] lays a plugin that already
    has its slug over the schema, so the marker never reaches a document
    and the entry is left out here. *)
Definition _ROW_SCHEMA : plugin :=
  list_to_map [
    ("normalized_name", VStr "");
    ("tags", VList []);
    ("created_at", VInt 0);
    ("updated_at", VInt 0);
    ("vimorg_id", VNone);
    ("vimorg_name", VStr "");
    ("vimorg_author", VStr "");
    ("vimorg_url", VStr "");
    ("vimorg_type", VStr "");
    ("vimorg_rating", VInt 0);
    ("vimorg_num_raters", VInt 0);
    ("vimorg_downloads", VInt 0);
    ("vimorg_short_desc", VStr "");
    ("vimorg_long_desc", VStr "");
    ("vimorg_install_details", VStr "");
    ("github_owner", VStr "");
    ("github_repo_name", VStr "");
    ("github_stars", VInt 0);
    ("github_short_desc", VStr "");
    ("github_homepage", VStr "");
    ("github_readme", VStr "");
    ("github_vim_scripts_repo_name", VStr "");
    ("github_vim_scripts_stars", VInt 0);
    ("github_bundles", VInt 0);
    ("github_vim_scripts_bundles", VInt 0)
  ].

(** The RethinkDB table ['plugins'] (primary key ['slug']): its documents,
    in the order in which the store hands them out. *)
Abbreviation table := (list plugin).

(** Whether document [d] is stored under primary key [key]. *)
Definition has_key (key : value) (d : plugin) : bool :=
  match d !! "slug" with
  | Some k => value_eqb k key
  | None => false
  end.

(** [r.table('plugins').get(slug)]. *)
Definition table_get (t : table) (slug : value) : option plugin :=
  List.find (has_key slug) t.

(** [r.table('plugins').get_all(v, index='vimorg_id')]: the documents
    whose ['vimorg_id'] field is [v]. *)
Definition table_get_all_vimorg_id (t : table) (v : value) : list plugin :=
  List.filter
    (λ d, match d !! "vimorg_id" with
          | Some w => value_eqb w v
          | None => false
          end) t.

(** [r.table('plugins').insert(docs, upsert=...)]: every document goes in
    under its slug; a document whose slug is already stored replaces the
    stored one when [upsert] is set and is rejected (the write is skipped
    and counted as an error in the summary, no exception) otherwise.  The
    summary that the driver returns is not modelled. *)
Fixpoint table_replace (doc : plugin) (t : table) : table :=
  match t with
  | [] => []
  | d :: t' =>
      if has_key (get doc "slug") d then doc :: t'
      else d :: table_replace doc t'
  end.

Definition table_insert_one (upsert : bool) (t : table) (doc : plugin) : table :=
  match table_get t (get doc "slug") with
  | Some _ => if upsert then table_replace doc t else t
  | None => t ++ [doc]
  end.

Definition table_insert (docs : list plugin) (upsert : bool) (t : table) : table :=
  fold_left (table_insert_one upsert) docs t.

(** [_slug_taken]: [bool(...)] of the fetched document, which is [None]
    when there is none and a dict (false only when empty) otherwise. *)
Definition _slug_taken (t : table) (slug : string) : bool :=
  match table_get t (VStr slug) with
  | Some d => negb (Nat.eqb (size d) 0)
  | None => false
  end.

(** The song titles of [_generate_unique_slug]. *)
Definition slug_suffixes : list string :=
  [ "all-too-well"; "back-to-december"; "better-than-revenge";
    "come-back-be-here"; "enchanted"; "fearless"; "holy-ground";
    "long-live"; "love-story"; "mine"; "ours"; "red"; "safe-and-sound";
    "sparks-fly"; "state-of-grace"; "sweeter-than-fiction"; "treacherous";
    "you-belong-with-me" ].

(** The messages handed to [logging.error], kept as the values that are
    interpolated into the message: the number of matches, the scraped
    data and the slugs of the matching plugins. *)
Inductive log_record : Type :=
  | LogError (found : nat) (scraped_data : plugin) (matching_slugs : list value).

(** What the module reads and writes: the table and the log. *)
Record world : Type := World {
  plugins_table : table;
  log : list log_record
}.

Section Slugify.

(** [slugify] of the python-slugify package, applied to text. *)
Variable slugify : string → string.

(** The name that the slug is made from:
    [vimorg_name or github_repo_name or github_vim_scripts_repo_name]. *)
Definition candidate_name (p : plugin) : value :=
  py_or (py_or (get p "vimorg_name") (get p "github_repo_name"))
        (get p "github_vim_scripts_repo_name").

(** The loop over the shuffled suffixes. *)
Fixpoint try_suffixes (t : table) (name : string) (suffixes : list string)
  : result string :=
  match suffixes with
  | [] => Raise (TooManyCollisions name)
  | slug_suffix :: rest =>
      let slug := slugify (name ++ "-" ++ slug_suffix) in
      if negb (_slug_taken t slug) then Ok slug
      else try_suffixes t name rest
  end.

(** [_generate_unique_slug].  [shuffled] is [slug_suffixes] as
    [random.shuffle] leaves it.  The name fields hold text; a truthy name
    of another type is outside the domain of [slugify] and raises. *)
Definition _generate_unique_slug (t : table) (shuffled : list string)
    (p : plugin) : result string :=
  let name := candidate_name p in
  if negb (truthy name) then Raise AssertionError
  else
    match name with
    | VStr name =>
        let slug := slugify name in
        if negb (_slug_taken t slug) then Ok slug
        else try_suffixes t name shuffled
    | _ => Raise TypeError
    end.

(** The body of the loop of [insert]: the document that is appended to
    [mapped_plugins] for one plugin. *)
Definition map_plugin (t : table) (shuffled : list string) (p : plugin)
  : result plugin :=
  p ← (if negb (truthy (get p "slug"))
       then slug ← _generate_unique_slug t shuffled p;
            mret (<["slug" := VStr slug]> p)
       else mret p);
  let p :=
    if negb (truthy (get p "normalized_name"))
    then <["normalized_name" := VStr "meredith grey swift"]> p
    else p in
  mret (p ∪ _ROW_SCHEMA).

(** The loop of [insert]: all documents are prepared against the table
    as it is before the write.  [rnd i] is the outcome of the shuffle for
    the [i]-th plugin, should slug generation come to shuffle. *)
Fixpoint map_plugins (t : table) (rnd : nat → list string) (i : nat)
    (plugins : list plugin) : result (list plugin) :=
  match plugins with
  | [] => mret []
  | p :: rest =>
      d ← map_plugin t (rnd i) p;
      ds ← map_plugins t rnd (S i) rest;
      mret (d :: ds)
  end.

(** [insert(plugins, upsert=...)]; a single plugin is passed as a
    one-element list. *)
Definition insert (rnd : nat → list string) (plugins : list plugin)
    (upsert : bool) (t : table) : result table :=
  mapped_plugins ← map_plugins t rnd 0 plugins;
  mret (table_insert mapped_plugins upsert t).

(** [_find_matching_vimorg_plugins]: the function falls off its end, and
    so returns [None], when the scraped data has no truthy ['vimorg_id']. *)
Definition _find_matching_vimorg_plugins (plugin_data : plugin) (t : table)
  : option (list plugin) :=
  if truthy (get plugin_data "vimorg_id")
  then Some (table_get_all_vimorg_id t (get plugin_data "vimorg_id"))
  else None.

(** [add_scraped_data].  [not plugins] holds for [None] and for the empty
    list; the second branch is [len(plugins) == 1]. *)
Definition add_scraped_data (shuffled : list string) (plugin_data : plugin)
    (w : world) : result world :=
  let plugins := _find_matching_vimorg_plugins plugin_data (plugins_table w) in
  match plugins with
  | None | Some [] =>
      t ← insert (λ _, shuffled) [plugin_data] false (plugins_table w);
      mret (World t (log w))
  | Some [p0] =>
      let updated_plugin := update_plugin p0 plugin_data in
      t ← insert (λ _, shuffled) [updated_plugin] true (plugins_table w);
      mret (World t (log w))
  | Some plugins =>
      slugs ← mapM (λ p, subscript p "slug") plugins;
      mret (World (plugins_table w)
                  (log w ++ [LogError (length plugins) plugin_data slugs]))
  end.

End Slugify.

(* ===================================================================== *)
(** * The search index                                                    *)
(* ===================================================================== *)

(** ** Text

    The text of a document is of Python's type [str] or of its type
    [unicode]: the code tests for [basestring], and which of the two a
    value is depends on where the document comes from.  The two types
    differ in what [lower()] and [split()] do outside plain ASCII, so the
    search index takes these two methods as an interface and is verified
    for every implementation of it. *)
Class Text : Type := {
  (** [t.lower()] *)
  lower : string → string;
  (** [value.split()] *)
  split : string → list string
}.

(** *** Byte strings

    The methods of [str]: the whitespace of [str.split()] is space, tab,
    newline, vertical tab, form feed and carriage return. *)
Definition is_space (c : ascii) : bool :=
  let n := nat_of_ascii c in
  (Nat.eqb n 32 || (Nat.leb 9 n && Nat.leb n 13))%bool.

(** [s.split()] of a byte string: the maximal runs of characters that
    are not whitespace.  [cur] is the run read so far. *)
Fixpoint split_from (cur : string) (s : string) : list string :=
  match s with
  | EmptyString => if String.eqb cur "" then [] else [cur]
  | String c s' =>
      if is_space c
      then if String.eqb cur "" then split_from "" s'
           else cur :: split_from "" s'
      else split_from (cur ++ String c "") s'
  end.

Definition str_split (s : string) : list string := split_from "" s.

(** [s.lower()] of a byte string: the letters [A]-[Z] are mapped to
    [a]-[z]. *)
Definition lower_ascii (c : ascii) : ascii :=
  let n := nat_of_ascii c in
  if (Nat.leb 65 n && Nat.leb n 90)%bool then ascii_of_nat (n + 32) else c.

Fixpoint str_lower (s : string) : string :=
  match s with
  | EmptyString => EmptyString
  | String c s' => String (lower_ascii c) (str_lower s')
  end.

Definition str_text : Text := {| lower := str_lower; split := str_split |}.

(** [sep.join(l)], the same for both types of text. *)
Fixpoint join (sep : string) (l : list string) : string :=
  match l with
  | [] => ""
  | [x] => x
  | x :: l' => x ++ sep ++ join sep l'
  end.

(** ** [_get_search_tokens_for_plugin] *)

Definition search_fields : list string :=
  ["name"; "tags"; "author"; "vimorg_short_desc"; "github_short_desc"].

Section Tokens.

Context `{T : Text}.

(** The [if]/[elif] chain that turns the value of a field into
    [tokens_list]. *)
Definition tokens_list_of (field : string) (v : value) : result (list value) :=
  match v with
  | VStr s => Ok (VStr <$> split s)
  | VList l => Ok l
  | VNone => Ok []
  | _ => Raise (UntokenizableType field)
  end.

(** [t.lower()], a method of text only. *)
Definition lower_token (t : value) : result string :=
  match t with
  | VStr s => Ok (lower s)
  | _ => Raise AttributeError
  end.

(** The loop over [search_fields], with the set built so far. *)
Fixpoint tokens_loop (p : plugin) (fields : list string) (tokens : gset string)
  : result (gset string) :=
  match fields with
  | [] => Ok tokens
  | field :: rest =>
      match p !! field with
      | None => tokens_loop p rest tokens
      | Some v =>
          tokens_list ← tokens_list_of field v;
          lowered ← mapM lower_token tokens_list;
          tokens_loop p rest (tokens ∪ list_to_set lowered)
      end
  end.

Definition _get_search_tokens_for_plugin (p : plugin) : result (gset string) :=
  tokens_loop p search_fields ∅.

End Tokens.

(** ** [get_search_index] *)

(** The fields kept by [pluck]. *)
Definition plucked_fields : list string :=
  ["id"; "name"; "created_at"; "updated_at"; "tags"; "homepage"; "author";
   "vimorg_id"; "vimorg_rating"; "vimorg_short_desc"; "github_stars";
   "github_url"; "github_short_desc"; "plugin_manager_users"].

Definition pluck (fields : list string) (d : plugin) : plugin :=
  filter (λ kv : string * value, kv.1 ∈ fields) d.

(** Unary minus, defined on numbers only. *)
Definition py_neg (v : value) : result Z :=
  match v with
  | VInt z => Ok (- z)
  | _ => Raise TypeError
  end.

(** The sort key
    [(-p.get('plugin_manager_users', 0), -p.get('github_stars', 0),
      -p.get('vimorg_rating', 0))]. *)
Definition sort_key (p : plugin) : result (Z * Z * Z) :=
  a ← py_neg (get_default p "plugin_manager_users" (VInt 0));
  b ← py_neg (get_default p "github_stars" (VInt 0));
  c ← py_neg (get_default p "vimorg_rating" (VInt 0));
  mret (a, b, c).

(** [<] on tuples of three integers. *)
Definition key_lt (x y : Z * Z * Z) : bool :=
  let '(a, b, c) := x in
  let '(a', b', c') := y in
  (a <? a') || ((a =? a') && ((b <? b') || ((b =? b') && (c <? c')))).

(** [list.sort(key=...)] computes the key of every element and then sorts
    stably by key.  The stable sorted arrangement of a list is unique;
    it is computed here by insertion from the right, an element staying
    in front of the later elements whose key is not smaller. *)
Fixpoint insert_by_key {A : Type} (x : (Z * Z * Z) * A)
    (l : list ((Z * Z * Z) * A)) : list ((Z * Z * Z) * A) :=
  match l with
  | [] => [x]
  | y :: l' =>
      if key_lt y.1 x.1 then y :: insert_by_key x l'
      else x :: y :: l'
  end.

Definition sort_by_key {A : Type} (l : list ((Z * Z * Z) * A)) : list A :=
  snd <$> foldr insert_by_key [] l.

Definition sort_plugins (plugins : list plugin) : result (list plugin) :=
  keyed ← mapM (λ p, k ← sort_key p; mret (k, p)) plugins;
  mret (sort_by_key keyed).

Section SetOrder.

Context `{T : Text}.

(** The order in which a Python [set] hands out its elements, which the
    language leaves open. *)
Variable set_iter : gset string → list string.

(** The second loop of [get_search_index], for one plugin. *)
Definition add_keywords (p : plugin) : result plugin :=
  tokens ← _get_search_tokens_for_plugin p;
  mret (<["keywords" := VStr (join " " (set_iter tokens))]> p).

(** [get_search_index], reading table [t]. *)
Definition get_search_index (t : table) : result (list plugin) :=
  let plugins := pluck plucked_fields <$> t in
  plugins ← sort_plugins plugins;
  mapM add_keywords plugins.

End SetOrder.

End Plugins.

(* ===================================================================== *)
(** * Vocabulary of the specification and sample records                  *)
(* ===================================================================== *)

Import Py Plugins.

(** A field is present in a record when the record holds a value other
    than [None] for it, and absent when the key is missing or holds
    [None]. *)
Definition present (d : plugin) (f : string) (v : value) : Prop :=
  d !! f = Some v ∧ v ≠ VNone.

Definition absent (d : plugin) (f : string) : Prop :=
  d !! f = None ∨ d !! f = Some VNone.

(** The timestamp and star count that [is_more_authoritative] compares. *)
Definition updated_at_of (d : plugin) : value :=
  get_default d "updated_at" (VInt 0).

Definition github_stars_of (d : plugin) : value :=
  get_default d "github_stars" (VInt 0).

(** A record carries a repository URL when its ['github_url'] is truthy. *)
Definition carries_url (d : plugin) : Prop :=
  truthy (get d "github_url") = true.

(** The authority rule in the words of the specification. *)
Definition more_authoritative_spec (a b : plugin) : Prop :=
  carries_url a ∧ carries_url b ∧ get a "github_url" ≠ get b "github_url" ∧
  (py_gt (updated_at_of a) (updated_at_of b) = true ∨
   (updated_at_of a = updated_at_of b ∧
    py_gt (github_stars_of a) (github_stars_of b) = true)).

(** The two overlays that [update_plugin] chooses between. *)
Definition overlay (old new : plugin) : plugin :=
  if is_more_authoritative old new
  then _merge_dict_except_none new old
  else _merge_dict_except_none old new.

(** The author's repository, more recently updated than the mirror. *)
Definition syntastic_author : plugin :=
  list_to_map [
    ("github_url", VStr "https://github.com/scrooloose/syntastic");
    ("created_at", VInt 1250000000);
    ("updated_at", VInt 1400000000);
    ("github_stars", VInt 3000);
    ("github_homepage", VStr "http://example.org/syntastic");
    ("vimorg_id", VNone)].

Definition syntastic_mirror : plugin :=
  list_to_map [
    ("github_url", VStr "https://github.com/vim-scripts/Syntastic");
    ("created_at", VInt 1260000000);
    ("updated_at", VInt 1300000000);
    ("github_stars", VInt 12);
    ("github_homepage", VNone);
    ("vimorg_id", VStr "2736")].

(** A stored record whose creation date is the schema default, and a
    scrape that knows the creation date but not the date of the last
    update. *)
Definition stored_without_created_at : plugin :=
  list_to_map [
    ("slug", VStr "syntastic");
    ("created_at", VInt 0);
    ("updated_at", VInt 1300000000)].

Definition scrape_without_updated_at : plugin :=
  list_to_map [
    ("created_at", VInt 1250000000);
    ("updated_at", VInt 0)].

(** A name field that is absent or empty: a missing key, [None] or empty
    text (any value that Python takes for false). *)
Definition absent_or_empty (d : plugin) (f : string) : Prop :=
  truthy (get d f) = false.

(** The slug made from [name] and a suffix. *)
Definition suffixed_slug (slugify : string → string) (name suffix : string)
  : string :=
  slugify (name ++ "-" ++ suffix).

(** A sample [slugify] for evaluating the model: lower case, spaces to
    hyphens. *)
Definition slugify_sample (s : string) : string :=
  str_lower (join "-" (str_split s)).

(** A table in which the slug of Syntastic and one suffixed slug are
    taken, and a scrape of the package index that is named Syntastic. *)
Definition syntastic_table : table :=
  [ list_to_map [("slug", VStr "syntastic"); ("vimorg_id", VStr "2736")];
    list_to_map [("slug", VStr "syntastic-you-belong-with-me");
                 ("vimorg_id", VStr "4000")] ].

Definition syntastic_scrape : plugin :=
  list_to_map [("vimorg_name", VStr "Syntastic"); ("github_repo_name", VStr "")].

Definition nerdtree_scrape : plugin :=
  list_to_map [("vimorg_name", VNone); ("github_repo_name", VStr "NERD Tree");
               ("github_vim_scripts_repo_name", VStr "The-NERD-tree")].

(** Every document of a table has its primary key, the slug. *)
Definition keyed (t : table) : Prop :=
  Forall (λ d : plugin, is_Some (d !! "slug")) t.

(** The record that [insert] stores for a scrape [p] that was given the
    slug [slug]: the scrape with its slug and, if it has none, the
    placeholder normalized name, laid over the defaults of the schema. *)
Definition new_record (slug : string) (p : plugin) : plugin :=
  let p := <["slug" := VStr slug]> p in
  let p :=
    if truthy (get p "normalized_name") then p
    else <["normalized_name" := VStr "meredith grey swift"]> p in
  p ∪ _ROW_SCHEMA.

(** Two stored records with the same package-index identifier, and a
    scrape of that identifier. *)
Definition python_table : table :=
  [ list_to_map [("slug", VStr "python"); ("vimorg_id", VStr "790");
                 ("vimorg_name", VStr "python.vim")];
    list_to_map [("slug", VStr "nerdtree"); ("vimorg_id", VStr "1658")];
    list_to_map [("slug", VStr "python-enchanted"); ("vimorg_id", VStr "790");
                 ("vimorg_name", VStr "python.vim")] ].

Definition python_scrape : plugin :=
  list_to_map [("vimorg_id", VStr "790"); ("vimorg_name", VStr "python.vim");
               ("vimorg_rating", VInt 120)].

(** A scrape of a GitHub repository: no package-index identifier. *)
Definition github_scrape : plugin :=
  list_to_map [("github_owner", VStr "scrooloose");
               ("github_repo_name", VStr "nerdtree");
               ("github_stars", VInt 3000)].

(** A scrape without package-index identifier and without any name. *)
Definition nameless_scrape : plugin :=
  list_to_map [("github_owner", VStr "scrooloose"); ("github_stars", VInt 3000)].

(** ** Keywords *)

(** A value that can be tokenized: text, a list or [None]. *)
Definition tokenizable (v : value) : Prop :=
  v = VNone ∨ (∃ s, v = VStr s) ∨ (∃ l, v = VList l).

(** A list of tokens: every element is text. *)
Definition text_list (l : list value) : Prop :=
  Forall (λ v, ∃ s, v = VStr s) l.

(** The list-valued search fields of a record hold tokens. *)
Definition lists_hold_text (p : plugin) : Prop :=
  ∀ f l, f ∈ search_fields → p !! f = Some (VList l) → text_list l.

(** The texts among the elements of a list. *)
Definition texts (l : list value) : list string :=
  omap (λ v, match v with VStr s => Some s | _ => None end) l.

(** What one field contributes to the keywords: the lowercased
    whitespace-separated words of a text, the lowercased elements of a
    list, and nothing when the field is missing or [None]. *)
Definition field_keywords `{T : Text} (p : plugin) (f : string) : gset string :=
  match p !! f with
  | Some (VStr s) => list_to_set (lower <$> split s)
  | Some (VList l) => list_to_set (lower <$> texts l)
  | _ => ∅
  end.

(** The union of the contributions of the search fields. *)
Definition keywords_spec `{T : Text} (p : plugin) : gset string :=
  ⋃ (field_keywords p <$> search_fields).

(** Plain text: printable ASCII characters and the six whitespace
    characters of ASCII.  On plain text [str] and [unicode] do the same. *)
Definition plain_char (c : ascii) : bool :=
  let n := nat_of_ascii c in
  ((Nat.leb 32 n && Nat.leb n 126) || (Nat.leb 9 n && Nat.leb n 13))%bool.

Fixpoint plain (s : string) : bool :=
  match s with
  | EmptyString => true
  | String c s' => plain_char c && plain s'
  end.

(** An implementation of text that does on plain text what byte strings
    do, as both [str] and [unicode] do. *)
Definition agrees_on_plain `{T : Text} : Prop :=
  ∀ s, plain s = true → lower s = str_lower s ∧ split s = str_split s.

(** The record of the tokenization example. *)
Definition foo_bar : plugin :=
  list_to_map [("tags", VList [VStr "autocomplete"; VStr "C/C++"]);
               ("name", VStr "Foo Bar")].




(** ** Ranking *)

(** A count of a record, a missing one being zero. *)
Definition count_of (p : plugin) (f : string) : Z :=
  match get_default p f (VInt 0) with
  | VInt z => z
  | _ => 0
  end.

(** The composite key: popularity, stars, rating. *)
Definition rank (p : plugin) : Z * Z * Z :=
  (count_of p "plugin_manager_users", count_of p "github_stars",
   count_of p "vimorg_rating").

(** Descending order on composite keys, each component breaking the ties
    of the one before. *)
Definition lex_ge (x y : Z * Z * Z) : Prop :=
  let '(a, b, c) := x in
  let '(a', b', c') := y in
  a > a' ∨ (a = a' ∧ (b > b' ∨ (b = b' ∧ c >= c'))).

Definition rank_ge (p q : plugin) : Prop := lex_ge (rank p) (rank q).

(** The counts of a record are integers where they are present. *)
Definition counts_are_int (p : plugin) : Prop :=
  ∀ f, f ∈ ["plugin_manager_users"; "github_stars"; "vimorg_rating"] →
       match p !! f with Some (VInt _) | None => True | _ => False end.

(** The names of the records of an index. *)
Definition names_of (index : result (list plugin)) : result (list value) :=
  match index with
  | Ok plugins => Ok ((λ p : plugin, get p "name") <$> plugins)
  | Raise e => Raise e
  end.

(** The records of the ranking example: popularity counts 5, 5, 1, star
    counts 2, 9, 100 and ratings 1, 1, 1. *)
Definition ranked (name : string) (users stars rating : Z) : plugin :=
  list_to_map [("slug", VStr name); ("name", VStr name);
               ("plugin_manager_users", VInt users);
               ("github_stars", VInt stars); ("vimorg_rating", VInt rating)].

Definition ranking_table : table :=
  [ranked "index0" 5 2 1; ranked "index1" 5 9 1; ranked "index2" 1 100 1].

(** A record that the index can be built from: integer counts, and
    search fields that hold text, lists of tokens or nothing. *)
Definition indexable (d : plugin) : Prop :=
  counts_are_int d ∧ lists_hold_text d ∧
  (∀ f v, f ∈ search_fields → d !! f = Some v → tokenizable v).

(** Three forks updated at the same time, two of them with the same
    number of stars. *)
Definition fork (owner : string) (stars : Z) : plugin :=
  list_to_map [("github_url", VStr ("https://github.com/" ++ owner ++ "/foo"));
               ("updated_at", VInt 1400000000);
               ("github_stars", VInt stars)].

(** ** The store *)

(** The primary keys of a table, in the order of its documents. *)
Definition slugs (t : table) : list value :=
  (λ d : plugin, get d "slug") <$> t.

(** A document that has every field of the schema. *)
Definition schema_complete (d : plugin) : Prop :=
  ∀ f, is_Some (_ROW_SCHEMA !! f) → is_Some (d !! f).

(** A well-formed table: every document has a slug, no two documents
    share one, and every document has every field of the schema. *)
Definition well_formed (t : table) : Prop :=
  keyed t ∧ NoDup (slugs t) ∧ Forall schema_complete t.

(** What [insert] does to a plugin before it lays it over the schema:
    the placeholder normalized name, if the plugin has none. *)
Definition with_normalized_name (p : plugin) : plugin :=
  if negb (truthy (get p "normalized_name"))
  then <["normalized_name" := VStr "meredith grey swift"]> p
  else p.

(** A stored record of the package index and the same script scraped
    again with a new rating. *)
Definition nerdtree_stored : plugin :=
  new_record "the-nerd-tree"
    (list_to_map [("vimorg_id", VStr "1658"); ("vimorg_name", VStr "The NERD tree");
                  ("vimorg_rating", VInt 100)]).

Definition nerdtree_rescrape : plugin :=
  list_to_map [("vimorg_id", VStr "1658"); ("vimorg_name", VStr "The NERD tree");
               ("vimorg_rating", VInt 250); ("slug", VNone)].

(** A first scrape of a script of the package index. *)
Definition nerdtree_first_scrape : plugin :=
  list_to_map [("vimorg_id", VStr "1658"); ("vimorg_name", VStr "The NERD tree");
               ("vimorg_rating", VInt 100)].

(** A count that is present but not a number, as [None] is. *)
Definition bad_count (d : plugin) : Prop :=
  ∃ f v, f ∈ ["plugin_manager_users"; "github_stars"; "vimorg_rating"] ∧
         d !! f = Some v ∧ ∀ z, v ≠ VInt z.

(** A search field that cannot be tokenized. *)
Definition bad_search_field (d : plugin) : Prop :=
  ∃ f v, f ∈ search_fields ∧ d !! f = Some v ∧ ¬ tokenizable v.

(** A record as the store holds it after an ingestion of a repository
    whose star count was not known. *)
Definition starless : plugin :=
  list_to_map [("slug", VStr "starless"); ("name", VStr "starless");
               ("github_stars", VNone)].

(** ** Words *)

(** A text without the whitespace of byte strings. *)
Fixpoint spaceless (s : string) : bool :=
  match s with
  | EmptyString => true
  | String c s' => negb (is_space c) && spaceless s'
  end.

(** Text of printable ASCII characters other than the space. *)
Definition graphic_char (c : ascii) : bool :=
  let n := nat_of_ascii c in
  (Nat.leb 33 n && Nat.leb n 126)%bool.

Fixpoint graphic (s : string) : bool :=
  match s with
  | EmptyString => true
  | String c s' => graphic_char c && graphic s'
  end.

(** A word: a text that is not empty and is made of printable ASCII
    characters other than the space. *)
Definition word (s : string) : Prop := s ≠ "" ∧ graphic s = true.

(** The list-valued search fields of a record hold words. *)
Definition lists_hold_words (p : plugin) : Prop :=
  ∀ f l, f ∈ search_fields → p !! f = Some (VList l) →
         Forall (λ v, ∃ s, v = VStr s ∧ word s) l.

(** The text-valued search fields of a record hold plain text. *)
Definition plain_fields (p : plugin) : Prop :=
  ∀ f s, f ∈ search_fields → p !! f = Some (VStr s) → plain s = true.
(* ===================================================================== *)
(** * Facts about Python values                                            *)
(* ===================================================================== *)

(** Induction principle that also covers the elements of a list value. *)
Lemma value_ind' (P : value → Prop) :
  P VNone → (∀ z, P (VInt z)) → (∀ s, P (VStr s)) →
  (∀ l, Forall P l → P (VList l)) → ∀ v, P v.
Proof.
  intros HN HI HS HL.
  fix IH 1. intros [ | z | s | l ]; [exact HN | apply HI | apply HS | ].
  apply HL. induction l as [ | x l IHl ]; constructor; [apply IH | exact IHl].
Qed.

Lemma value_eqb_eq (a b : value) : value_eqb a b = true ↔ a = b.
Proof.
  revert b. induction a as [ | z | s | l IH ] using value_ind';
    intros [ | z' | s' | l' ]; simpl; try (split; [discriminate | congruence]);
    try (split; congruence).
  - rewrite Z.eqb_eq. split; congruence.
  - rewrite String.eqb_eq. split; congruence.
  - revert l'. induction IH as [ | x l Hx _ IHl ]; intros [ | y l' ];
      try (split; [discriminate | congruence]); [split; congruence | ].
    rewrite andb_true_iff, Hx, IHl. split.
    + intros [-> E]. by inversion E.
    + intros E. inversion E. by subst.
Qed.

Lemma py_cmp_refl (v : value) : py_cmp v v = Eq.
Proof.
  induction v as [ | z | s | l IH ] using value_ind'; simpl; try done.
  - apply Z.compare_refl.
  - pose proof (String.compare_antisym s s) as H.
    by destruct (String.compare s s).
  - induction IH as [ | x l Hx _ IHl ]; [done | by rewrite Hx].
Qed.

Lemma py_gt_irrefl (v : value) : py_gt v v = false.
Proof. unfold py_gt. by rewrite py_cmp_refl. Qed.

Lemma py_lt_irrefl (v : value) : py_lt v v = false.
Proof. unfold py_lt. by rewrite py_cmp_refl. Qed.

Lemma py_gt_int (x y : Z) : py_gt (VInt x) (VInt y) = (y <? x).
Proof.
  unfold py_gt. simpl. rewrite Z.ltb_compare, (Z.compare_antisym x y).
  by destruct (x ?= y).
Qed.

Lemma py_lt_int (x y : Z) : py_lt (VInt x) (VInt y) = (x <? y).
Proof. unfold py_lt. simpl. rewrite Z.ltb_compare. by destruct (x ?= y). Qed.

Lemma py_max_int (x y : Z) : py_max (VInt x) (VInt y) = VInt (Z.max x y).
Proof.
  unfold py_max. rewrite py_gt_int. destruct (Z.ltb_spec x y).
  - by rewrite Z.max_r by lia.
  - by rewrite Z.max_l by lia.
Qed.

Lemma py_min_int (x y : Z) : py_min (VInt x) (VInt y) = VInt (Z.min x y).
Proof.
  unfold py_min. rewrite py_lt_int. destruct (Z.ltb_spec y x).
  - by rewrite Z.min_r by lia.
  - by rewrite Z.min_l by lia.
Qed.

Lemma py_max_same (v : value) : py_max v v = v.
Proof. unfold py_max. by rewrite py_gt_irrefl. Qed.

Lemma py_min_same (v : value) : py_min v v = v.
Proof. unfold py_min. by rewrite py_lt_irrefl. Qed.

(* ===================================================================== *)
(** * The merge of scraped records                                        *)
(* ===================================================================== *)

Lemma is_not_none_true (v : value) : is_not_none v = true ↔ v ≠ VNone.
Proof. destruct v; simpl; split; try done. Qed.

Lemma value_eqb_refl (v : value) : value_eqb v v = true.
Proof. by apply value_eqb_eq. Qed.

Lemma value_eqb_neq (a b : value) : value_eqb a b = false ↔ a ≠ b.
Proof.
  destruct (value_eqb a b) eqn:E.
  - apply value_eqb_eq in E. split; [done | intros H; by destruct H].
  - split; [ | done]. intros _ H. apply value_eqb_eq in H. congruence.
Qed.

(** What a lookup in the overlay of [dict_b] on [dict_a] reads. *)
Lemma lookup_merge_dict_except_none (dict_a dict_b : plugin) (k : string) :
  _merge_dict_except_none dict_a dict_b !! k =
  match dict_b !! k with
  | Some v => if is_not_none v then Some v else dict_a !! k
  | None => dict_a !! k
  end.
Proof.
  unfold _merge_dict_except_none. rewrite lookup_union, map_lookup_filter.
  destruct (dict_b !! k) as [v | ] eqn:E; simpl.
  - destruct (is_not_none v) eqn:Hv.
    + rewrite option_guard_True by done. simpl. by destruct (dict_a !! k).
    + rewrite option_guard_False by (simpl; congruence).
      simpl. by destruct (dict_a !! k).
  - by destruct (dict_a !! k).
Qed.

Lemma merge_keeps_base (dict_a dict_b : plugin) (f : string) (v : value) :
  dict_a !! f = Some v → absent dict_b f →
  _merge_dict_except_none dict_a dict_b !! f = Some v.
Proof.
  intros Ha [Hb | Hb]; rewrite lookup_merge_dict_except_none, Hb; by simpl.
Qed.

Lemma merge_takes_overlay (dict_a dict_b : plugin) (f : string) (v : value) :
  present dict_b f v →
  _merge_dict_except_none dict_a dict_b !! f = Some v.
Proof.
  intros [Hb Hv]. rewrite lookup_merge_dict_except_none, Hb.
  apply is_not_none_true in Hv. by rewrite Hv.
Qed.

Lemma merge_self (r : plugin) : _merge_dict_except_none r r = r.
Proof.
  unfold _merge_dict_except_none. apply map_subseteq_union, map_filter_subseteq.
Qed.

Lemma absent_not_truthy (d : plugin) (f : string) :
  absent d f → truthy (get d f) = false.
Proof. unfold get. by intros [-> | ->]. Qed.

Lemma truthy_get_lookup (d : plugin) (f : string) :
  truthy (get d f) = true → d !! f = Some (get d f).
Proof. unfold get. by destruct (d !! f). Qed.

(** Outside the two guarded assignments, [update_plugin] is the overlay. *)
Lemma update_plugin_lookup (old new : plugin) (f : string) :
  update_plugin old new !! f =
  if decide (f = "created_at") then
    if truthy (get old "created_at") && truthy (get new "created_at")
    then Some (py_min (get old "created_at") (get new "created_at"))
    else overlay old new !! f
  else if decide (f = "updated_at") then
    if truthy (get old "updated_at") && truthy (get new "updated_at")
    then Some (py_max (get old "updated_at") (get new "updated_at"))
    else overlay old new !! f
  else overlay old new !! f.
Proof.
  unfold update_plugin. fold (overlay old new).
  destruct (truthy (get old "updated_at") && truthy (get new "updated_at"));
  destruct (truthy (get old "created_at") && truthy (get new "created_at"));
  repeat case_decide; subst; simplify_map_eq; done.
Qed.

Lemma is_more_authoritative_iff (a b : plugin) :
  is_more_authoritative a b = true ↔ more_authoritative_spec a b.
Proof.
  unfold is_more_authoritative, more_authoritative_spec, carries_url.
  fold (updated_at_of a) (updated_at_of b) (github_stars_of a) (github_stars_of b).
  destruct (truthy (get a "github_url")); simpl;
    [ | split; [discriminate | intros [? _]; discriminate] ].
  destruct (truthy (get b "github_url")); simpl;
    [ | split; [discriminate | intros (_ & ? & _); discriminate] ].
  destruct (value_eqb (get a "github_url") (get b "github_url")) eqn:Hu; simpl.
  { apply value_eqb_eq in Hu. split; [discriminate | ]. by intros (_ & _ & ? & _). }
  apply value_eqb_neq in Hu.
  destruct (py_gt (updated_at_of a) (updated_at_of b)) eqn:Hgt; [tauto | ].
  destruct (value_eqb (updated_at_of a) (updated_at_of b)) eqn:He.
  - apply value_eqb_eq in He. intuition congruence.
  - apply value_eqb_neq in He. intuition congruence.
Qed.

Lemma is_more_authoritative_self (r : plugin) : is_more_authoritative r r = false.
Proof.
  unfold is_more_authoritative. rewrite value_eqb_refl.
  by destruct (truthy (get r "github_url")).
Qed.

(** ** Claims about the merge *)

(** C1 (merge non-destructiveness).  For all records [old] and [new] and
    every field [f]: if [old] holds a present value [v] for [f] and the
    value of [new] for [f] is absent, or [new] holds the present value [v]
    and the value of [old] is absent, then [update_plugin old new] holds
    [v] for [f].  Both overlays that the authority check chooses between
    hold [v] as well, so the property does not depend on the direction of
    authority. *)
Theorem update_plugin_non_destructive
    (old new : plugin) (f : string) (v : value)
    (H : (present old f v ∧ absent new f) ∨ (present new f v ∧ absent old f)) :
  update_plugin old new !! f = Some v ∧
  _merge_dict_except_none old new !! f = Some v ∧
  _merge_dict_except_none new old !! f = Some v.
Proof.
  assert (Hguard : truthy (get old f) && truthy (get new f) = false).
  { destruct H as [[_ Ha] | [_ Ha]]; apply absent_not_truthy in Ha; rewrite Ha;
      [apply andb_false_r | done]. }
  assert (Hon : _merge_dict_except_none old new !! f = Some v).
  { destruct H as [[[Ho _] Hn] | [Hn _]];
      [by apply merge_keeps_base | by apply merge_takes_overlay]. }
  assert (Hno : _merge_dict_except_none new old !! f = Some v).
  { destruct H as [[Ho _] | [[Hn _] Ho]];
      [by apply merge_takes_overlay | by apply merge_keeps_base]. }
  split; [ | done].
  rewrite update_plugin_lookup.
  assert (Hov : overlay old new !! f = Some v).
  { unfold overlay. by destruct (is_more_authoritative old new). }
  repeat case_decide; subst; rewrite ?Hguard; done.
Qed.

Lemma update_plugin_non_destructive_witness :
  is_more_authoritative syntastic_author syntastic_mirror = true ∧
  update_plugin syntastic_author syntastic_mirror !! "github_homepage"
    = Some (VStr "http://example.org/syntastic") ∧
  update_plugin syntastic_author syntastic_mirror !! "vimorg_id"
    = Some (VStr "2736") ∧
  update_plugin syntastic_mirror syntastic_author !! "vimorg_id"
    = Some (VStr "2736").
Proof.
  split; [reflexivity | ]. split; [ | split].
  - apply (update_plugin_non_destructive syntastic_author syntastic_mirror
             "github_homepage" (VStr "http://example.org/syntastic")).
    left. split; [split; [reflexivity | discriminate] | right; reflexivity].
  - apply (update_plugin_non_destructive syntastic_author syntastic_mirror
             "vimorg_id" (VStr "2736")).
    right. split; [split; [reflexivity | discriminate] | right; reflexivity].
  - apply (update_plugin_non_destructive syntastic_mirror syntastic_author
             "vimorg_id" (VStr "2736")).
    left. split; [split; [reflexivity | discriminate] | right; reflexivity].
Defined.

(** C2 (authority rule).  [is_more_authoritative a b] is true if and only
    if both records carry a repository URL, the URLs differ, and either
    the updated timestamp of [a] is strictly greater than that of [b] or
    the timestamps are equal and the star count of [a] is strictly
    greater; in every other case it is false.  With equal timestamps and
    equal stars it is false in both argument orders.  On integers the
    comparison [py_gt] is the strict order of [Z] (lemma [py_gt_int]). *)
Theorem is_more_authoritative_spec (a b : plugin) :
  (is_more_authoritative a b = true ↔ more_authoritative_spec a b) ∧
  (¬ more_authoritative_spec a b → is_more_authoritative a b = false) ∧
  (updated_at_of a = updated_at_of b → github_stars_of a = github_stars_of b →
   is_more_authoritative a b = false ∧ is_more_authoritative b a = false).
Proof.
  split; [apply is_more_authoritative_iff | split].
  - intros Hn. destruct (is_more_authoritative a b) eqn:E; [ | done].
    by apply is_more_authoritative_iff in E.
  - intros Hu Hs.
    assert (Hnot : ∀ x y, updated_at_of x = updated_at_of y →
                          github_stars_of x = github_stars_of y →
                          is_more_authoritative x y = false).
    { intros x y Hxy Sxy. destruct (is_more_authoritative x y) eqn:E; [ | done].
      apply is_more_authoritative_iff in E.
      destruct E as (_ & _ & _ & [Hgt | [_ Hgt]]).
      - rewrite Hxy, py_gt_irrefl in Hgt. discriminate.
      - rewrite Sxy, py_gt_irrefl in Hgt. discriminate. }
    split; apply Hnot; done.
Qed.

(** The rule on records whose timestamps and star counts are integers. *)
Lemma more_authoritative_spec_int (a b : plugin) (ua ub sa sb : Z) :
  updated_at_of a = VInt ua → updated_at_of b = VInt ub →
  github_stars_of a = VInt sa → github_stars_of b = VInt sb →
  more_authoritative_spec a b ↔
  carries_url a ∧ carries_url b ∧ get a "github_url" ≠ get b "github_url" ∧
  (ua > ub ∨ (ua = ub ∧ sa > sb)).
Proof.
  intros Ha Hb Sa Sb. unfold more_authoritative_spec.
  rewrite Ha, Hb, Sa, Sb, !py_gt_int.
  assert (VInt ua = VInt ub ↔ ua = ub) as -> by (split; congruence).
  rewrite !Z.ltb_lt. intuition lia.
Qed.

Lemma update_plugin_updated_at (old new : plugin) :
  truthy (get old "updated_at") = true → truthy (get new "updated_at") = true →
  update_plugin old new !! "updated_at"
  = Some (py_max (get old "updated_at") (get new "updated_at")).
Proof.
  intros Ho Hn. rewrite update_plugin_lookup.
  repeat case_decide; try done. by rewrite Ho, Hn.
Qed.

Lemma update_plugin_created_at (old new : plugin) :
  truthy (get old "created_at") = true → truthy (get new "created_at") = true →
  update_plugin old new !! "created_at"
  = Some (py_min (get old "created_at") (get new "created_at")).
Proof.
  intros Ho Hn. rewrite update_plugin_lookup.
  repeat case_decide; try done. by rewrite Ho, Hn.
Qed.

Lemma get_lookup_Some (d : plugin) (f : string) (v : value) :
  d !! f = Some v → get d f = v.
Proof. unfold get. by intros ->. Qed.

Lemma truthy_int (z : Z) : z ≠ 0 → truthy (VInt z) = true.
Proof. intros H. simpl. by apply negb_true_iff, Z.eqb_neq. Qed.

(** C3, as the code has it.  When both [old] and [new] hold a non-zero
    integer for ['updated_at'], the merged record holds the maximum of the
    two, and when both hold a non-zero integer for ['created_at'] it holds
    the minimum; this is so for all [old] and [new], whichever of them the
    authority check prefers. *)
Theorem update_plugin_timestamps (old new : plugin) :
  (∀ a b : Z,
     old !! "updated_at" = Some (VInt a) → new !! "updated_at" = Some (VInt b) →
     a ≠ 0 → b ≠ 0 →
     update_plugin old new !! "updated_at" = Some (VInt (Z.max a b))) ∧
  (∀ a b : Z,
     old !! "created_at" = Some (VInt a) → new !! "created_at" = Some (VInt b) →
     a ≠ 0 → b ≠ 0 →
     update_plugin old new !! "created_at" = Some (VInt (Z.min a b))).
Proof.
  split; intros a b Ho Hn Ha Hb;
    apply get_lookup_Some in Ho; apply get_lookup_Some in Hn.
  - rewrite update_plugin_updated_at by (rewrite ?Ho, ?Hn; by apply truthy_int).
    by rewrite Ho, Hn, py_max_int.
  - rewrite update_plugin_created_at by (rewrite ?Ho, ?Hn; by apply truthy_int).
    by rewrite Ho, Hn, py_min_int.
Qed.

Lemma update_plugin_timestamps_witness :
  is_more_authoritative syntastic_author syntastic_mirror = true ∧
  update_plugin syntastic_author syntastic_mirror !! "updated_at"
    = Some (VInt (Z.max 1400000000 1300000000)) ∧
  update_plugin syntastic_mirror syntastic_author !! "created_at"
    = Some (VInt (Z.min 1260000000 1250000000)).
Proof.
  split; [reflexivity | split].
  - apply (proj1 (update_plugin_timestamps syntastic_author syntastic_mirror));
      [reflexivity | reflexivity | lia | lia].
  - apply (proj2 (update_plugin_timestamps syntastic_mirror syntastic_author));
      [reflexivity | reflexivity | lia | lia].
Defined.

(** C3 as stated fails on a timestamp that is present but zero, the
    default that the schema gives to a record: both records below hold a
    present ['created_at'] and a present ['updated_at'], yet the merged
    record holds neither the minimum of the creation dates nor the maximum
    of the update dates. *)
Lemma update_plugin_zero_timestamp_counterexample :
  present stored_without_created_at "created_at" (VInt 0) ∧
  present scrape_without_updated_at "created_at" (VInt 1250000000) ∧
  update_plugin stored_without_created_at scrape_without_updated_at
    !! "created_at" = Some (VInt 1250000000) ∧
  VInt 1250000000 ≠ VInt (Z.min 0 1250000000) ∧
  present stored_without_created_at "updated_at" (VInt 1300000000) ∧
  present scrape_without_updated_at "updated_at" (VInt 0) ∧
  update_plugin stored_without_created_at scrape_without_updated_at
    !! "updated_at" = Some (VInt 0) ∧
  VInt 0 ≠ VInt (Z.max 1300000000 0).
Proof.
  repeat split; try reflexivity; try discriminate.
Qed.

(** C9 (merge idempotence).  [update_plugin r r = r] for every record
    [r]: the authority check on a record and itself is false, the overlay
    of [r] on [r] is [r], and the maximum and the minimum of a timestamp
    with itself are that timestamp. *)
Theorem update_plugin_idempotent (r : plugin) :
  update_plugin r r = r ∧
  is_more_authoritative r r = false ∧
  _merge_dict_except_none r r = r.
Proof.
  split; [ | split; [apply is_more_authoritative_self | apply merge_self] ].
  apply map_eq. intros f. rewrite update_plugin_lookup.
  unfold overlay. rewrite is_more_authoritative_self, merge_self.
  rewrite py_min_same, py_max_same, !andb_diag.
  repeat case_decide; subst; try done.
  - destruct (truthy (get r "created_at")) eqn:E; [ | done].
    symmetry. by apply truthy_get_lookup.
  - destruct (truthy (get r "updated_at")) eqn:E; [ | done].
    symmetry. by apply truthy_get_lookup.
Qed.

Lemma is_more_authoritative_spec_witness :
  (is_more_authoritative (fork "alice" 10) (fork "bob" 10) = false ∧
   is_more_authoritative (fork "bob" 10) (fork "alice" 10) = false) ∧
  is_more_authoritative (fork "carol" 25) (fork "alice" 10) = true.
Proof.
  split.
  - apply (proj2 (proj2 (is_more_authoritative_spec (fork "alice" 10)
                           (fork "bob" 10)))); reflexivity.
  - apply (proj1 (is_more_authoritative_spec (fork "carol" 25)
                    (fork "alice" 10))).
    split; [reflexivity | split; [reflexivity | split; [discriminate | ] ] ].
    right. split; reflexivity.
Defined.

(* ===================================================================== *)
(** * Slug generation                                                     *)
(* ===================================================================== *)

Section SlugFacts.

Variable slugify : string → string.
Variable t : table.

Let taken (name suffix : string) : Prop :=
  _slug_taken t (suffixed_slug slugify name suffix) = true.

Lemma try_suffixes_first (name : string) (tried rest : list string)
    (suffix : string) :
  Forall (taken name) tried →
  _slug_taken t (suffixed_slug slugify name suffix) = false →
  try_suffixes slugify t name (tried ++ suffix :: rest)%list
  = Ok (suffixed_slug slugify name suffix).
Proof.
  intros Htried Hfree. induction Htried as [ | s tried Hs _ IH ]; simpl.
  - fold (suffixed_slug slugify name suffix). by rewrite Hfree.
  - fold (suffixed_slug slugify name s). unfold taken in Hs. by rewrite Hs.
Qed.

Lemma try_suffixes_all_taken (name : string) (suffixes : list string) :
  Forall (taken name) suffixes →
  try_suffixes slugify t name suffixes = Raise (TooManyCollisions name).
Proof.
  induction 1 as [ | s l Hs _ IH ]; simpl; [done | ].
  fold (suffixed_slug slugify name s). unfold taken in Hs. by rewrite Hs.
Qed.

(** The loop ends in one of two ways: with the first free suffixed slug,
    every suffix before it being taken, or with the exception, every
    suffix being taken. *)
Lemma try_suffixes_cases (name : string) (suffixes : list string) :
  (∃ (tried : list string) (suffix : string) (rest : list string),
      suffixes = (tried ++ suffix :: rest)%list ∧ Forall (taken name) tried ∧
      _slug_taken t (suffixed_slug slugify name suffix) = false ∧
      try_suffixes slugify t name suffixes
      = Ok (suffixed_slug slugify name suffix)) ∨
  (Forall (taken name) suffixes ∧
   try_suffixes slugify t name suffixes = Raise (TooManyCollisions name)).
Proof.
  induction suffixes as [ | s l IH ]; simpl; [right; by split | ].
  fold (suffixed_slug slugify name s).
  destruct (_slug_taken t (suffixed_slug slugify name s)) eqn:Hs; simpl.
  - destruct IH as [(tried & suffix & rest & -> & Htried & Hfree & Hres)
                   | [Hall Hres]].
    + left. exists (s :: tried), suffix, rest. repeat split; try done.
      by constructor.
    + right. split; [by constructor | done].
  - left. exists [], s, l. repeat split; try done.
Qed.

Lemma _generate_unique_slug_collision_loop (shuffled : list string)
    (p : plugin) (name : string) :
  candidate_name p = VStr name → name ≠ "" →
  _slug_taken t (slugify name) = true →
  _generate_unique_slug slugify t shuffled p
  = try_suffixes slugify t name shuffled.
Proof.
  intros Hname Hne Htaken. unfold _generate_unique_slug. rewrite Hname. simpl.
  apply String.eqb_neq in Hne. by rewrite Hne, Htaken.
Qed.

Lemma try_suffixes_not_assertion (name : string) (suffixes : list string) :
  try_suffixes slugify t name suffixes ≠ Raise AssertionError.
Proof.
  destruct (try_suffixes_cases name suffixes)
    as [(? & ? & ? & _ & _ & _ & ->) | [_ ->]]; discriminate.
Qed.

(** Whatever slug is returned is free. *)
Lemma _generate_unique_slug_untaken (shuffled : list string) (p : plugin)
    (slug : string) :
  _generate_unique_slug slugify t shuffled p = Ok slug →
  _slug_taken t slug = false.
Proof.
  unfold _generate_unique_slug.
  destruct (truthy (candidate_name p)); simpl; [ | discriminate].
  destruct (candidate_name p) as [ | | name | ]; try discriminate.
  destruct (_slug_taken t (slugify name)) eqn:Htaken; simpl.
  - destruct (try_suffixes_cases name shuffled)
      as [(? & ? & ? & _ & _ & Hfree & ->) | [_ ->]]; [ | discriminate].
    intros [= <-]. done.
  - intros [= <-]. done.
Qed.

End SlugFacts.

(** C5 (slug collision resolution).  For a plugin whose candidate name is
    the non-empty text [name], whose plain slug is taken, and for any
    order [shuffled] of the suffix pool: the pool has 18 suffixes; the
    slug made with the first suffix of [shuffled] whose slug is free is
    returned, every suffix tried before it being taken; if the slugs of
    all suffixes of the pool are taken the exception of the exhausted pool
    is raised and no slug is returned; one of the two always happens; and
    a returned slug is free. *)
Theorem _generate_unique_slug_collision
    (slugify : string → string) (t : table) (shuffled : list string)
    (p : plugin) (name : string)
    (Hname : candidate_name p = VStr name) (Hne : name ≠ "")
    (Htaken : _slug_taken t (slugify name) = true)
    (Hperm : shuffled ≡ₚ slug_suffixes) :
  let taken suffix := _slug_taken t (suffixed_slug slugify name suffix) = true in
  let generated := _generate_unique_slug slugify t shuffled p in
  length slug_suffixes = 18%nat ∧
  (∀ (tried : list string) (suffix : string) (rest : list string),
     shuffled = (tried ++ suffix :: rest)%list → Forall taken tried → ¬ taken suffix →
     generated = Ok (suffixed_slug slugify name suffix)) ∧
  (Forall taken slug_suffixes → generated = Raise (TooManyCollisions name)) ∧
  ((∃ suffix, suffix ∈ slug_suffixes ∧ ¬ taken suffix ∧
              generated = Ok (suffixed_slug slugify name suffix)) ∨
   (Forall taken slug_suffixes ∧ generated = Raise (TooManyCollisions name))) ∧
  (∀ slug, generated = Ok slug → _slug_taken t slug = false).
Proof.
  intros taken generated. subst generated.
  rewrite (_generate_unique_slug_collision_loop slugify t shuffled p name)
    by done.
  split; [reflexivity | ]. split; [ | split; [ | split] ].
  - intros tried suffix rest -> Htried Hfree.
    apply try_suffixes_first; [done | ].
    by apply not_true_is_false.
  - intros Hall. apply try_suffixes_all_taken. by rewrite Hperm.
  - destruct (try_suffixes_cases slugify t name shuffled)
      as [(tried & suffix & rest & Heq & _ & Hfree & Hres) | [Hall Hres]].
    + left. exists suffix. split; [ | split; [ | done] ].
      * rewrite <- Hperm, Heq. set_solver.
      * unfold taken. rewrite Hfree. discriminate.
    + right. split; [by rewrite <- Hperm | done].
  - intros slug Hok.
    apply (_generate_unique_slug_untaken slugify t shuffled p).
    by rewrite (_generate_unique_slug_collision_loop slugify t shuffled p name).
Qed.

Lemma _generate_unique_slug_collision_witness :
  _generate_unique_slug slugify_sample syntastic_table (rev slug_suffixes)
    syntastic_scrape
  = Ok "syntastic-treacherous".
Proof.
  assert (Hperm : rev slug_suffixes ≡ₚ slug_suffixes)
    by (symmetry; apply Permutation_rev).
  pose proof (_generate_unique_slug_collision slugify_sample syntastic_table
                (rev slug_suffixes) syntastic_scrape "Syntastic"
                eq_refl ltac:(discriminate) eq_refl Hperm) as (_ & Hfirst & _).
  apply (Hfirst ["you-belong-with-me"] "treacherous"
           (skipn 2 (rev slug_suffixes))).
  - reflexivity.
  - constructor; [reflexivity | constructor].
  - vm_compute. discriminate.
Defined.

Lemma truthy_candidate_name (p : plugin) :
  truthy (candidate_name p)
  = truthy (get p "vimorg_name") || truthy (get p "github_repo_name")
    || truthy (get p "github_vim_scripts_repo_name").
Proof.
  unfold candidate_name, py_or.
  destruct (truthy (get p "vimorg_name")) eqn:H1; simpl; rewrite ?H1; [done | ].
  by destruct (truthy (get p "github_repo_name")) eqn:H2; simpl; rewrite ?H2.
Qed.

Lemma _generate_unique_slug_assertion (slugify : string → string) (t : table)
    (shuffled : list string) (p : plugin) :
  _generate_unique_slug slugify t shuffled p = Raise AssertionError ↔
  truthy (candidate_name p) = false.
Proof.
  unfold _generate_unique_slug.
  destruct (truthy (candidate_name p)); simpl; [ | done].
  split; [ | discriminate].
  destruct (candidate_name p) as [ | | name | ]; try discriminate.
  destruct (_slug_taken t (slugify name)); simpl; [ | discriminate].
  intros H. by apply try_suffixes_not_assertion in H.
Qed.

(** C6 (slug candidate derivation).  The candidate name is the
    package-index name if that is not absent or empty, else the name of
    the author's repository if that is not absent or empty, else the name
    of the mirror repository.  Slug generation fails with the assertion
    error (InvalidInput) if and only if all three are absent or empty.
    When the slug of the candidate name is not taken, that slug is
    returned, without a suffix. *)
Theorem _generate_unique_slug_candidate
    (slugify : string → string) (t : table) (shuffled : list string)
    (p : plugin) :
  candidate_name p
  = (if truthy (get p "vimorg_name") then get p "vimorg_name"
     else if truthy (get p "github_repo_name") then get p "github_repo_name"
     else get p "github_vim_scripts_repo_name") ∧
  (_generate_unique_slug slugify t shuffled p = Raise AssertionError ↔
   absent_or_empty p "vimorg_name" ∧ absent_or_empty p "github_repo_name" ∧
   absent_or_empty p "github_vim_scripts_repo_name") ∧
  (∀ name : string,
     candidate_name p = VStr name → name ≠ "" →
     _slug_taken t (slugify name) = false →
     _generate_unique_slug slugify t shuffled p = Ok (slugify name)).
Proof.
  split; [ | split].
  - unfold candidate_name, py_or.
    destruct (truthy (get p "vimorg_name")) eqn:H1; rewrite ?H1; [done | ].
    by destruct (truthy (get p "github_repo_name")).
  - rewrite _generate_unique_slug_assertion, truthy_candidate_name.
    unfold absent_or_empty. rewrite !orb_false_iff. tauto.
  - intros name Hname Hne Hfree. unfold _generate_unique_slug.
    rewrite Hname. simpl. apply String.eqb_neq in Hne. by rewrite Hne, Hfree.
Qed.

Lemma _generate_unique_slug_candidate_witness :
  candidate_name nerdtree_scrape = VStr "NERD Tree" ∧
  _generate_unique_slug slugify_sample syntastic_table slug_suffixes
    nerdtree_scrape = Ok "nerd-tree".
Proof.
  split; [reflexivity | ].
  apply (proj2 (proj2 (_generate_unique_slug_candidate slugify_sample
                         syntastic_table slug_suffixes nerdtree_scrape))
           "NERD Tree"); [reflexivity | discriminate | reflexivity].
Defined.

(* ===================================================================== *)
(** * Ingestion of scraped data                                           *)
(* ===================================================================== *)

Lemma table_get_all_vimorg_id_keyed (t : table) (v : value) :
  keyed t → keyed (table_get_all_vimorg_id t v).
Proof.
  unfold keyed, table_get_all_vimorg_id. rewrite !List.Forall_forall.
  intros H d Hd. apply List.filter_In in Hd. apply H, Hd.
Qed.

Lemma mapM_result_cons {A B : Type} (f : A → result B) (x : A) (l : list A) :
  mapM f (x :: l) = y ← f x; k ← mapM f l; mret (y :: k).
Proof. reflexivity. Qed.

Lemma mapM_subscript_slug (ps : list plugin) :
  keyed ps →
  mapM (λ p : plugin, subscript p "slug") ps
  = Ok ((λ d : plugin, get d "slug") <$> ps).
Proof.
  induction 1 as [ | d ps [k Hk] _ IH ]; [done | ].
  rewrite mapM_result_cons, IH, fmap_cons. unfold subscript, get at 2.
  rewrite Hk. reflexivity.
Qed.

(** C4 (ambiguous match).  Whenever the matching of the scraped data
    finds more than one stored record, [add_scraped_data] returns
    normally, leaves the table as it was and appends exactly one error
    record to the log, which holds the number of candidates, the scraped
    data and the slug of every candidate.  Stored records have a slug,
    the primary key of the table. *)
Theorem add_scraped_data_ambiguous
    (slugify : string → string) (shuffled : list string)
    (plugin_data : plugin) (w : world) (candidates : list plugin)
    (Hkeyed : keyed (plugins_table w))
    (Hfound : _find_matching_vimorg_plugins plugin_data (plugins_table w)
              = Some candidates)
    (Hmany : (1 < length candidates)%nat) :
  add_scraped_data slugify shuffled plugin_data w
  = Ok (World (plugins_table w)
              (log w ++ [LogError (length candidates) plugin_data
                                  ((λ d : plugin, get d "slug") <$> candidates)])).
Proof.
  assert (Hk : keyed candidates).
  { unfold _find_matching_vimorg_plugins in Hfound.
    destruct (truthy (get plugin_data "vimorg_id")); [ | discriminate].
    injection Hfound as <-. by apply table_get_all_vimorg_id_keyed. }
  unfold add_scraped_data. rewrite Hfound.
  destruct candidates as [ | p0 [ | p1 rest ] ]; simpl in Hmany; try lia.
  by rewrite (mapM_subscript_slug _ Hk).
Qed.

Lemma add_scraped_data_ambiguous_witness :
  add_scraped_data slugify_sample slug_suffixes python_scrape
    (World python_table [])
  = Ok (World python_table
          [LogError 2 python_scrape [VStr "python"; VStr "python-enchanted"]]).
Proof.
  assert (Hkeyed : keyed python_table) by (repeat constructor; by eexists).
  assert (Hmany : (1 < 2)%nat) by lia.
  exact (add_scraped_data_ambiguous slugify_sample slug_suffixes python_scrape
           (World python_table [])
           [ list_to_map [("slug", VStr "python"); ("vimorg_id", VStr "790");
                          ("vimorg_name", VStr "python.vim")];
             list_to_map [("slug", VStr "python-enchanted");
                          ("vimorg_id", VStr "790");
                          ("vimorg_name", VStr "python.vim")] ]
           Hkeyed eq_refl Hmany).
Defined.

Lemma _slug_taken_false (t : table) (slug : string) :
  _slug_taken t slug = false → table_get t (VStr slug) = None.
Proof.
  unfold _slug_taken, table_get.
  destruct (List.find (has_key (VStr slug)) t) as [d | ] eqn:E; [ | done].
  apply List.find_some in E as [_ Hkey]. unfold has_key in Hkey.
  destruct (d !! "slug") as [k | ] eqn:Hk; [ | discriminate].
  destruct (Nat.eqb_spec (size d) 0) as [Hz | ]; [ | discriminate].
  apply map_size_empty_inv in Hz. subst d. by rewrite lookup_empty in Hk.
Qed.

Lemma insert_single (slugify : string → string) (rnd : nat → list string)
    (p : plugin) (upsert : bool) (t : table) :
  insert slugify rnd [p] upsert t
  = d ← map_plugin slugify t (rnd 0%nat) p; mret (table_insert_one upsert t d).
Proof.
  unfold insert. simpl. by destruct (map_plugin slugify t (rnd 0%nat) p).
Qed.

Lemma table_insert_one_no_upsert (t : table) (doc : plugin) :
  table_insert_one false t doc
  = match table_get t (get doc "slug") with
    | Some _ => t
    | None => (t ++ [doc])%list
    end.
Proof. reflexivity. Qed.

Lemma map_plugin_new_record (slugify : string → string) (t : table)
    (shuffled : list string) (p : plugin) (slug : string) :
  absent_or_empty p "slug" →
  _generate_unique_slug slugify t shuffled p = Ok slug →
  map_plugin slugify t shuffled p = Ok (new_record slug p).
Proof.
  unfold absent_or_empty, map_plugin, new_record. intros -> ->. simpl.
  by destruct (truthy (get (<["slug":=VStr slug]> p) "normalized_name")).
Qed.

Lemma map_plugin_raise (slugify : string → string) (t : table)
    (shuffled : list string) (p : plugin) (e : error) :
  absent_or_empty p "slug" →
  _generate_unique_slug slugify t shuffled p = Raise e →
  map_plugin slugify t shuffled p = Raise e.
Proof. unfold absent_or_empty, map_plugin. by intros -> ->. Qed.

Lemma new_record_slug (slug : string) (p : plugin) :
  get (new_record slug p) "slug" = VStr slug.
Proof.
  unfold new_record, get. erewrite lookup_union_Some_l; [reflexivity | ].
  destruct (truthy _).
  - apply lookup_insert_eq.
  - rewrite lookup_insert_ne by done. apply lookup_insert_eq.
Qed.

(** C10, as the code has it.  For scraped data without a truthy
    ['vimorg_id'], matching returns [None] and [add_scraped_data] is the
    insert path: it never merges, so that whenever it returns the log is
    as before and the stored records are as before, at most one record
    being added behind them.  If the scraped data has no slug and slug
    generation returns [slug], that slug is not in the table and exactly
    one new record, stored under it, is added; if slug generation raises,
    so does [add_scraped_data], and nothing is written. *)
Theorem add_scraped_data_without_vimorg_id
    (slugify : string → string) (shuffled : list string)
    (plugin_data : plugin) (w : world)
    (Hno_id : truthy (get plugin_data "vimorg_id") = false) :
  let t := plugins_table w in
  let ingested := add_scraped_data slugify shuffled plugin_data w in
  _find_matching_vimorg_plugins plugin_data t = None ∧
  ingested = (t' ← insert slugify (λ _, shuffled) [plugin_data] false t;
              mret (World t' (log w))) ∧
  (∀ w', ingested = Ok w' →
         log w' = log w ∧
         (plugins_table w' = t ∨ ∃ doc, plugins_table w' = (t ++ [doc])%list)) ∧
  (∀ slug, absent_or_empty plugin_data "slug" →
           _generate_unique_slug slugify t shuffled plugin_data = Ok slug →
           table_get t (VStr slug) = None ∧
           ingested = Ok (World (t ++ [new_record slug plugin_data])%list (log w))) ∧
  (∀ e, absent_or_empty plugin_data "slug" →
        _generate_unique_slug slugify t shuffled plugin_data = Raise e →
        ingested = Raise e).
Proof.
  intros t ingested.
  assert (Hfind : _find_matching_vimorg_plugins plugin_data t = None)
    by (unfold _find_matching_vimorg_plugins; by rewrite Hno_id).
  assert (Hpath : ingested
                  = (t' ← insert slugify (λ _, shuffled) [plugin_data] false t;
                     mret (World t' (log w))))
    by (subst ingested t; unfold add_scraped_data; by rewrite Hfind).
  split; [done | ]. split; [done | ]. rewrite Hpath, insert_single.
  split; [ | split].
  - intros w'. destruct (map_plugin slugify t shuffled plugin_data) as [d | e];
      [ | discriminate].
    intros [= <-]. simpl. split; [done | ].
    rewrite table_insert_one_no_upsert.
    destruct (table_get t (get d "slug")); [by left | right; by exists d].
  - intros slug Hslug Hgen.
    assert (Hfree : table_get t (VStr slug) = None).
    { apply _slug_taken_false.
      by apply (_generate_unique_slug_untaken slugify t shuffled plugin_data). }
    split; [done | ].
    rewrite (map_plugin_new_record slugify t shuffled plugin_data slug) by done.
    change (Ok (World (table_insert_one false t (new_record slug plugin_data))
                      (log w))
            = Ok (World (t ++ [new_record slug plugin_data])%list (log w))).
    by rewrite table_insert_one_no_upsert, new_record_slug, Hfree.
  - intros e Hslug Hgen.
    by rewrite (map_plugin_raise slugify t shuffled plugin_data e).
Qed.

Lemma add_scraped_data_without_vimorg_id_witness :
  table_get python_table (VStr "nerdtree-all-too-well") = None ∧
  add_scraped_data slugify_sample slug_suffixes github_scrape
    (World python_table [])
  = Ok (World (python_table
                 ++ [new_record "nerdtree-all-too-well" github_scrape])%list []).
Proof.
  apply (add_scraped_data_without_vimorg_id slugify_sample slug_suffixes
           github_scrape (World python_table []) eq_refl);
    reflexivity.
Defined.

(** C10 as stated fails on scraped data that has neither a package-index
    identifier nor a name: the insert path is taken, the assertion of slug
    generation fails and no record is created. *)
Lemma add_scraped_data_nameless_counterexample :
  truthy (get nameless_scrape "vimorg_id") = false ∧
  _find_matching_vimorg_plugins nameless_scrape python_table = None ∧
  add_scraped_data slugify_sample slug_suffixes nameless_scrape
    (World python_table []) = Raise AssertionError ∧
  ¬ ∃ w', add_scraped_data slugify_sample slug_suffixes nameless_scrape
            (World python_table []) = Ok w'.
Proof.
  repeat split; try reflexivity. intros [w' H]. discriminate H.
Qed.

(** ** The slug stays the primary key *)

Lemma table_replace_keyed (doc : plugin) (t : table) :
  is_Some (doc !! "slug") → keyed t → keyed (table_replace doc t).
Proof.
  intros Hdoc. unfold keyed.
  induction 1 as [ | d t Hd Ht IH ]; simpl; [constructor | ].
  destruct (has_key (get doc "slug") d); constructor; done.
Qed.

Lemma table_insert_one_keyed (upsert : bool) (t : table) (doc : plugin) :
  is_Some (doc !! "slug") → keyed t → keyed (table_insert_one upsert t doc).
Proof.
  intros Hdoc Ht. unfold table_insert_one.
  destruct (table_get t (get doc "slug")).
  - destruct upsert; [by apply table_replace_keyed | done].
  - apply Forall_app. split; [done | by repeat constructor].
Qed.

Lemma table_insert_keyed (docs : list plugin) (upsert : bool) (t : table) :
  keyed docs → keyed t → keyed (table_insert docs upsert t).
Proof.
  unfold table_insert. intros Hdocs. revert t.
  induction Hdocs as [ | d docs Hd _ IH ]; intros t Ht; simpl; [done | ].
  by apply IH, table_insert_one_keyed.
Qed.

Section InsertFacts.

Variable slugify : string → string.

Lemma map_plugin_keyed (t : table) (shuffled : list string) (p d : plugin) :
  map_plugin slugify t shuffled p = Ok d → is_Some (d !! "slug").
Proof.
  unfold map_plugin.
  assert (Hfill : ∀ q : plugin, is_Some (q !! "slug") →
    is_Some (((if negb (truthy (get q "normalized_name"))
               then <["normalized_name":=VStr "meredith grey swift"]> q
               else q) ∪ _ROW_SCHEMA) !! "slug")).
  { intros q [k Hk]. exists k. apply lookup_union_Some_l.
    destruct (negb _); by simplify_map_eq. }
  destruct (truthy (get p "slug")) eqn:E; simpl.
  - intros [= <-]. apply Hfill. apply truthy_get_lookup in E. by eexists.
  - destruct (_generate_unique_slug slugify t shuffled p) as [slug | ];
      [ | discriminate].
    intros [= <-]. apply Hfill. exists (VStr slug). by simplify_map_eq.
Qed.

Lemma map_plugins_keyed (t : table) (rnd : nat → list string) (i : nat)
    (plugins docs : list plugin) :
  map_plugins slugify t rnd i plugins = Ok docs → keyed docs.
Proof.
  revert i docs. induction plugins as [ | p plugins IH ]; intros i docs; simpl.
  - intros [= <-]. constructor.
  - destruct (map_plugin slugify t (rnd i) p) as [d | ] eqn:E; [ | discriminate].
    destruct (map_plugins slugify t rnd (S i) plugins) as [ds | ] eqn:Es;
      [ | discriminate].
    intros [= <-]. constructor; [by eapply map_plugin_keyed | by eapply IH].
Qed.

Lemma insert_keyed (rnd : nat → list string) (plugins : list plugin)
    (upsert : bool) (t t' : table) :
  keyed t → insert slugify rnd plugins upsert t = Ok t' → keyed t'.
Proof.
  intros Ht. unfold insert.
  destruct (map_plugins slugify t rnd 0 plugins) as [docs | ] eqn:E;
    [ | discriminate].
  intros [= <-]. apply table_insert_keyed; [by eapply map_plugins_keyed | done].
Qed.

(** Ingestion keeps every stored record under a slug. *)
Lemma add_scraped_data_keyed (shuffled : list string) (plugin_data : plugin)
    (w w' : world) :
  keyed (plugins_table w) →
  add_scraped_data slugify shuffled plugin_data w = Ok w' →
  keyed (plugins_table w').
Proof.
  intros Ht. unfold add_scraped_data.
  destruct (_find_matching_vimorg_plugins plugin_data (plugins_table w))
    as [ [ | p0 [ | p1 rest ] ] | ].
  - destruct (insert _ _ _ _ _) as [t' | ] eqn:E; [ | discriminate].
    intros [= <-]. by eapply insert_keyed.
  - destruct (insert _ _ _ _ _) as [t' | ] eqn:E; [ | discriminate].
    intros [= <-]. by eapply insert_keyed.
  - destruct (mapM _ _) as [slugs | ]; [ | discriminate]. by intros [= <-].
  - destruct (insert _ _ _ _ _) as [t' | ] eqn:E; [ | discriminate].
    intros [= <-]. by eapply insert_keyed.
Qed.

End InsertFacts.

(* ===================================================================== *)
(** * The search index                                                    *)
(* ===================================================================== *)

Lemma tokenizable_dec (v : value) : tokenizable v ∨ ¬ tokenizable v.
Proof.
  destruct v; [left; by left | right | left; right; left; by eexists
              | left; right; right; by eexists].
  intros [H | [[s H] | [l H]]]; discriminate.
Qed.

Lemma mapM_lower_token_split `{T : Text} (s : string) :
  mapM lower_token (VStr <$> split s) = Ok (lower <$> split s).
Proof.
  induction (split s) as [ | w ws IH ]; [done | ].
  rewrite !fmap_cons, mapM_result_cons, IH. reflexivity.
Qed.

Lemma mapM_lower_token_texts `{T : Text} (l : list value) :
  text_list l → mapM lower_token l = Ok (lower <$> texts l).
Proof.
  induction 1 as [ | v l [s ->] _ IH ]; [done | ].
  rewrite mapM_result_cons, IH. reflexivity.
Qed.

(** One step of the loop on a field whose value can be tokenized. *)
Lemma tokens_loop_step `{T : Text} (p : plugin) (f : string) (rest : list string)
    (acc : gset string) :
  (∀ l, p !! f = Some (VList l) → text_list l) →
  (∀ v, p !! f = Some v → tokenizable v) →
  tokens_loop p (f :: rest) acc = tokens_loop p rest (acc ∪ field_keywords p f).
Proof.
  intros Htext Htok. simpl. unfold field_keywords.
  destruct (p !! f) as [v | ] eqn:E.
  - destruct (Htok v eq_refl) as [-> | [[s ->] | [l ->]]]; simpl.
    + change (tokens_loop p rest (acc ∪ list_to_set [])
              = tokens_loop p rest (acc ∪ ∅)). done.
    + rewrite mapM_lower_token_split. reflexivity.
    + rewrite (mapM_lower_token_texts l (Htext l eq_refl)). reflexivity.
  - by rewrite (right_id_L ∅ (∪)).
Qed.

Lemma tokens_loop_ok `{T : Text} (p : plugin) (fields : list string) (acc : gset string) :
  (∀ f l, f ∈ fields → p !! f = Some (VList l) → text_list l) →
  Forall (λ f, ∀ v, p !! f = Some v → tokenizable v) fields →
  tokens_loop p fields acc = Ok (acc ∪ ⋃ (field_keywords p <$> fields)).
Proof.
  intros Htext Htok. revert acc.
  induction Htok as [ | f rest Hf _ IH ]; intros acc.
  - simpl. by rewrite (right_id_L ∅ (∪)).
  - rewrite tokens_loop_step; [ | intros l; apply Htext; set_solver | done].
    rewrite IH by (intros g l Hg; apply Htext; set_solver).
    rewrite fmap_cons, union_list_cons. by rewrite (assoc_L (∪)).
Qed.

Lemma tokens_loop_raise `{T : Text} (p : plugin) (fields : list string) (acc : gset string) :
  (∀ f l, f ∈ fields → p !! f = Some (VList l) → text_list l) →
  Exists (λ f, ∃ v, p !! f = Some v ∧ ¬ tokenizable v) fields →
  ∃ f, f ∈ fields ∧ tokens_loop p fields acc = Raise (UntokenizableType f).
Proof.
  intros Htext Hex. revert acc.
  induction fields as [ | f rest IH ]; intros acc; [by inversion Hex | ].
  assert (Hrest : ∀ g l, g ∈ rest → p !! g = Some (VList l) → text_list l)
    by (intros g l Hg; apply Htext; set_solver).
  destruct (p !! f) as [v | ] eqn:E.
  - destruct (tokenizable_dec v) as [Hv | Hv].
    + rewrite tokens_loop_step;
        [ | intros l; apply Htext; set_solver
          | intros w Hw; rewrite E in Hw; by injection Hw as <- ].
      inversion Hex as [ ? ? (v' & Hv' & Hn) | ? ? Hex' ]; subst.
      { rewrite E in Hv'. injection Hv' as <-. done. }
      destruct (IH Hrest Hex' (acc ∪ field_keywords p f)) as (g & Hg & ->).
      exists g. split; [set_solver | done].
    + exists f. split; [set_solver | ]. simpl. rewrite E.
      destruct v as [ | z | s | l ]; [ | reflexivity | | ].
      * destruct Hv. by left.
      * destruct Hv. right. left. by eexists.
      * destruct Hv. right. right. by eexists.
  - inversion Hex as [ ? ? (v' & Hv' & Hn) | ? ? Hex' ]; subst.
    { rewrite E in Hv'. discriminate. }
    simpl. rewrite E.
    destruct (IH Hrest Hex' acc) as (g & Hg & ->).
    exists g. split; [set_solver | done].
Qed.

Lemma search_fields_cases (p : plugin) :
  Forall (λ f, ∀ v, p !! f = Some v → tokenizable v) search_fields ∨
  Exists (λ f, ∃ v, p !! f = Some v ∧ ¬ tokenizable v) search_fields.
Proof.
  induction search_fields as [ | f l IH ]; [left; constructor | ].
  destruct (p !! f) as [v | ] eqn:E.
  - destruct (tokenizable_dec v) as [Hv | Hv].
    + destruct IH as [IH | IH]; [left | right; by constructor 2].
      constructor; [ | done]. intros w. rewrite E. by intros [= <-].
    + right. constructor 1. by exists v.
  - destruct IH as [IH | IH]; [left | right; by constructor 2].
    constructor; [ | done]. intros w. rewrite E. discriminate.
Qed.

Lemma _get_search_tokens_for_plugin_ok `{T : Text} (p : plugin) :
  lists_hold_text p →
  Forall (λ f, ∀ v, p !! f = Some v → tokenizable v) search_fields →
  _get_search_tokens_for_plugin p = Ok (keywords_spec p).
Proof.
  intros Htext H. unfold _get_search_tokens_for_plugin, keywords_spec.
  rewrite tokens_loop_ok by done. by rewrite (left_id_L ∅ (∪)).
Qed.

Lemma lists_hold_text_intro (p : plugin) :
  Forall (λ f, match p !! f with
               | Some (VList l) => text_list l
               | _ => True
               end) search_fields →
  lists_hold_text p.
Proof.
  intros H f l Hf Hl. rewrite Forall_forall in H.
  specialize (H f Hf). by rewrite Hl in H.
Qed.

Lemma lists_hold_text_foo_bar : lists_hold_text foo_bar.
Proof.
  apply lists_hold_text_intro.
  repeat constructor; by eexists.
Defined.

Lemma tokenizable_foo_bar :
  Forall (λ f, ∀ v, foo_bar !! f = Some v → tokenizable v) search_fields.
Proof.
  apply Forall_forall. intros f Hf v Hv.
  repeat (apply elem_of_cons in Hf as [-> | Hf]);
    try (by apply elem_of_nil in Hf);
    vm_compute in Hv; try discriminate; injection Hv as <-;
    first [right; left; by eexists | right; right; by eexists].
Defined.




Lemma str_text_agrees_on_plain : @agrees_on_plain str_text.
Proof. intros s _. by split. Defined.



(** ** Ranking *)

Lemma key_lt_asym (x y : Z * Z * Z) : key_lt x y = true → key_lt y x = false.
Proof.
  destruct x as [[a b] c], y as [[a' b'] c']. unfold key_lt.
  rewrite !orb_true_iff, !andb_true_iff, !orb_true_iff, !andb_true_iff.
  rewrite !orb_false_iff, !andb_false_iff, !orb_false_iff, !andb_false_iff.
  rewrite !Z.ltb_lt, !Z.eqb_eq, !Z.ltb_ge, !Z.eqb_neq. lia.
Qed.

(** [y] is not before [x] in the order of the keys exactly when the
    negated key of [x] is at least that of [y]. *)
Lemma key_lt_false_lex_ge (a b c a' b' c' : Z) :
  key_lt (- a', - b', - c') (- a, - b, - c) = false ↔
  lex_ge (a, b, c) (a', b', c').
Proof.
  unfold key_lt, lex_ge.
  rewrite !orb_false_iff, !andb_false_iff, !orb_false_iff, !andb_false_iff.
  rewrite !Z.ltb_ge, !Z.eqb_neq. lia.
Qed.

#[local] Instance rank_ge_trans : Transitive rank_ge.
Proof.
  intros p q r. unfold rank_ge.
  destruct (rank p) as [[a b] c], (rank q) as [[a' b'] c'],
           (rank r) as [[a'' b''] c''].
  unfold lex_ge. lia.
Qed.

(** The key that the sort computes is the negated rank. *)
Lemma sort_key_rank (p : plugin) (k : Z * Z * Z) :
  sort_key p = Ok k →
  k = (- count_of p "plugin_manager_users", - count_of p "github_stars",
       - count_of p "vimorg_rating").
Proof.
  unfold sort_key, count_of.
  destruct (get_default p "plugin_manager_users" (VInt 0)); try discriminate.
  destruct (get_default p "github_stars" (VInt 0)); try discriminate.
  destruct (get_default p "vimorg_rating" (VInt 0)); try discriminate.
  simpl. by intros [= <-].
Qed.

Lemma sort_key_counts_are_int (p : plugin) :
  counts_are_int p → ∃ k, sort_key p = Ok k.
Proof.
  intros H. unfold sort_key, get_default.
  pose proof (H "plugin_manager_users" ltac:(set_solver)) as H1.
  pose proof (H "github_stars" ltac:(set_solver)) as H2.
  pose proof (H "vimorg_rating" ltac:(set_solver)) as H3.
  destruct (p !! "plugin_manager_users") as [ [ | | | ] | ]; try done;
  destruct (p !! "github_stars") as [ [ | | | ] | ]; try done;
  destruct (p !! "vimorg_rating") as [ [ | | | ] | ]; try done;
  by eexists.
Qed.

Section InsertionSort.

Context {A : Type}.

(** Order of the keyed elements: the second does not come before the
    first. *)
Let keyed_le (x y : (Z * Z * Z) * A) : Prop := key_lt y.1 x.1 = false.

Lemma insert_by_key_perm (x : (Z * Z * Z) * A) (l : list ((Z * Z * Z) * A)) :
  insert_by_key x l ≡ₚ x :: l.
Proof.
  induction l as [ | y l IH ]; simpl; [done | ].
  destruct (key_lt y.1 x.1); [ | done].
  rewrite IH. apply Permutation_swap.
Qed.

Lemma insert_by_key_hd (x y : (Z * Z * Z) * A) (l : list ((Z * Z * Z) * A)) :
  keyed_le y x → HdRel keyed_le y l → HdRel keyed_le y (insert_by_key x l).
Proof.
  intros Hyx Hy. destruct l as [ | z l ]; simpl; [by constructor | ].
  destruct (key_lt z.1 x.1); constructor; [by inversion Hy | done].
Qed.

Lemma insert_by_key_sorted (x : (Z * Z * Z) * A) (l : list ((Z * Z * Z) * A)) :
  Sorted keyed_le l → Sorted keyed_le (insert_by_key x l).
Proof.
  induction 1 as [ | y l Hl IH Hy ]; simpl; [by repeat constructor | ].
  destruct (key_lt y.1 x.1) eqn:E.
  - constructor; [done | ]. apply insert_by_key_hd; [ | done].
    unfold keyed_le. by apply key_lt_asym.
  - constructor; [by constructor | ]. by constructor.
Qed.

Lemma foldr_insert_by_key_sorted (l : list ((Z * Z * Z) * A)) :
  Sorted keyed_le (foldr insert_by_key [] l).
Proof.
  induction l as [ | x l IH ]; simpl; [constructor | ].
  by apply insert_by_key_sorted.
Qed.

Lemma foldr_insert_by_key_perm (l : list ((Z * Z * Z) * A)) :
  foldr insert_by_key [] l ≡ₚ l.
Proof.
  induction l as [ | x l IH ]; simpl; [done | ].
  by rewrite insert_by_key_perm, IH.
Qed.

End InsertionSort.

Lemma mapM_result_Forall2 {A B : Type} (f : A → result B) (l : list A)
    (k : list B) :
  mapM f l = Ok k → Forall2 (λ x y, f x = Ok y) l k.
Proof.
  revert k. induction l as [ | x l IH ]; intros k.
  - intros [= <-]. constructor.
  - rewrite mapM_result_cons. destruct (f x) as [y | ] eqn:E; [ | discriminate].
    destruct (mapM f l) as [k' | ]; [ | discriminate].
    intros [= <-]. constructor; [done | by apply IH].
Qed.

Lemma mapM_result_total {A B : Type} (f : A → result B) (l : list A) :
  Forall (λ x, ∃ y, f x = Ok y) l → ∃ k, mapM f l = Ok k.
Proof.
  induction 1 as [ | x l [y Hy] _ [k IH] ]; [by exists [] | ].
  exists (y :: k). by rewrite mapM_result_cons, Hy, IH.
Qed.

(** The keyed list that the sort builds pairs every plugin with its key. *)
Lemma mapM_sort_key (plugins : list plugin)
    (keyed : list ((Z * Z * Z) * plugin)) :
  mapM (λ p : plugin, k ← sort_key p; mret (k, p)) plugins = Ok keyed →
  snd <$> keyed = plugins ∧
  Forall (λ kp : (Z * Z * Z) * plugin, sort_key kp.2 = Ok kp.1) keyed.
Proof.
  intros H. apply mapM_result_Forall2 in H.
  induction H as [ | p kp plugins keyed Hp _ [IH1 IH2] ]; [done | ].
  destruct (sort_key p) as [k | ] eqn:E; [ | discriminate].
  injection Hp as <-. rewrite fmap_cons, IH1. split; [done | by constructor].
Qed.

Lemma keyed_sorted_rank (l : list ((Z * Z * Z) * plugin)) :
  Forall (λ kp : (Z * Z * Z) * plugin, sort_key kp.2 = Ok kp.1) l →
  Sorted (λ x y : (Z * Z * Z) * plugin, key_lt y.1 x.1 = false) l →
  Sorted rank_ge (snd <$> l).
Proof.
  intros Hkeys Hs. induction Hs as [ | x l Hl IH Hx ]; [constructor | ].
  inversion Hkeys as [ | ? ? Kx Kl ]; subst.
  rewrite fmap_cons. constructor; [by apply IH | ].
  destruct Hx as [ | y l Hxy ]; [constructor | ].
  rewrite fmap_cons. constructor.
  inversion Kl as [ | ? ? Ky _ ]; subst.
  apply sort_key_rank in Kx, Ky. rewrite Kx, Ky in Hxy.
  by apply key_lt_false_lex_ge in Hxy.
Qed.

(** [sort_plugins] returns the plugins rearranged in descending rank. *)
Lemma sort_plugins_sorted (plugins sorted : list plugin) :
  sort_plugins plugins = Ok sorted →
  sorted ≡ₚ plugins ∧ Sorted rank_ge sorted.
Proof.
  unfold sort_plugins.
  destruct (mapM _ plugins) as [keyed | ] eqn:E; [ | discriminate].
  intros [= <-]. apply mapM_sort_key in E as [<- Hkeys]. unfold sort_by_key.
  split.
  - by rewrite foldr_insert_by_key_perm.
  - apply keyed_sorted_rank; [ | apply foldr_insert_by_key_sorted].
    by rewrite foldr_insert_by_key_perm.
Qed.

Lemma sort_plugins_total (plugins : list plugin) :
  Forall counts_are_int plugins → ∃ sorted, sort_plugins plugins = Ok sorted.
Proof.
  intros H. unfold sort_plugins.
  destruct (mapM_result_total (λ p : plugin, k ← sort_key p; mret (k, p)) plugins)
    as [keyed ->]; [ | by eexists].
  eapply Forall_impl; [exact H | ]. intros p Hp.
  destruct (sort_key_counts_are_int p Hp) as [k ->]. by eexists.
Qed.

Section KeywordFacts.

Context `{T : Text}.
Variable set_iter : gset string → list string.

(** Adding the keywords leaves the rank of a record as it is. *)
Lemma add_keywords_rank (p q : plugin) :
  add_keywords set_iter p = Ok q → rank q = rank p.
Proof.
  unfold add_keywords.
  destruct (_get_search_tokens_for_plugin p) as [tokens | ]; [ | discriminate].
  intros [= <-]. unfold rank, count_of, get_default.
  by rewrite !lookup_insert_ne by done.
Qed.

Lemma add_keywords_sorted (sorted out : list plugin) :
  Forall2 (λ p q, add_keywords set_iter p = Ok q) sorted out →
  Sorted rank_ge sorted → Sorted rank_ge out.
Proof.
  induction 1 as [ | p q sorted out Hpq Hrest IH ]; [constructor | ].
  intros Hs. apply Sorted_inv in Hs as [Hs Hhd].
  constructor; [by apply IH | ].
  destruct Hrest as [ | p' q' sorted out Hpq' _ ]; [constructor | ].
  apply HdRel_inv in Hhd. constructor. unfold rank_ge in *.
  by rewrite (add_keywords_rank _ _ Hpq), (add_keywords_rank _ _ Hpq').
Qed.

Lemma add_keywords_total (p : plugin) :
  lists_hold_text p →
  (∀ f v, f ∈ search_fields → p !! f = Some v → tokenizable v) →
  ∃ q, add_keywords set_iter p = Ok q.
Proof.
  intros Htext Htok. unfold add_keywords.
  rewrite (_get_search_tokens_for_plugin_ok p Htext); [by eexists | ].
  apply Forall_forall. intros f Hf v. by apply Htok.
Qed.

End KeywordFacts.

Lemma lookup_pluck (fields : list string) (d : plugin) (f : string) :
  pluck fields d !! f = if decide (f ∈ fields) then d !! f else None.
Proof.
  unfold pluck. rewrite map_lookup_filter.
  destruct (d !! f) as [v | ]; simpl; [ | by case_decide].
  case_decide.
  - by rewrite option_guard_True.
  - by rewrite option_guard_False.
Qed.

Lemma pluck_indexable (d : plugin) :
  indexable d → indexable (pluck plucked_fields d).
Proof.
  intros (Hc & Ht & Hk). split; [ | split].
  - intros f Hf. rewrite lookup_pluck. case_decide; [by apply Hc | done].
  - intros f l Hf. rewrite lookup_pluck. case_decide; [by apply Ht | done].
  - intros f v Hf. rewrite lookup_pluck. case_decide; [by apply Hk | done].
Qed.

Lemma counts_are_int_ranked (name : string) (users stars rating : Z) :
  counts_are_int (ranked name users stars rating).
Proof.
  intros f Hf.
  repeat (apply elem_of_cons in Hf as [-> | Hf]);
    [done | done | done | by apply elem_of_nil in Hf].
Defined.

Lemma indexable_ranked (name : string) (users stars rating : Z) :
  indexable (ranked name users stars rating).
Proof.
  split; [apply counts_are_int_ranked | split].
  - apply lists_hold_text_intro. repeat constructor.
  - intros f v Hf Hv.
    repeat (apply elem_of_cons in Hf as [-> | Hf]);
      try (by apply elem_of_nil in Hf);
      vm_compute in Hv; try discriminate; injection Hv as <-.
    right. left. by eexists.
Defined.


Lemma bind_Ok {A B : Type} (a : A) (f : A → result B) : (Ok a ≫= f) = f a.
Proof. reflexivity. Qed.

Lemma add_keywords_indexable `{T : Text} (set_iter : gset string → list string)
    (p : plugin) :
  indexable p →
  add_keywords set_iter p
  = Ok (<["keywords" := VStr (join " " (set_iter (keywords_spec p)))]> p).
Proof.
  intros (_ & Htext & Htok). unfold add_keywords.
  rewrite (_get_search_tokens_for_plugin_ok p Htext); [done | ].
  apply Forall_forall. intros f Hf v. by apply Htok.
Qed.

Lemma name_with_keywords (p : plugin) (keywords : value) :
  get (<["keywords" := keywords]> p) "name" = get p "name".
Proof. unfold get. by rewrite lookup_insert_ne. Qed.

(** The order of the ranking example, whatever the text and the order
    of the sets. *)
Lemma ranking_table_names `{T : Text} (set_iter : gset string → list string) :
  names_of (get_search_index set_iter ranking_table)
  = Ok [VStr "index1"; VStr "index0"; VStr "index2"].
Proof.
  unfold get_search_index.
  assert (Hsort : sort_plugins (pluck plucked_fields <$> ranking_table)
                  = Ok [pluck plucked_fields (ranked "index1" 5 9 1);
                        pluck plucked_fields (ranked "index0" 5 2 1);
                        pluck plucked_fields (ranked "index2" 1 100 1)])
    by reflexivity.
  rewrite Hsort, bind_Ok, !mapM_result_cons.
  rewrite !add_keywords_indexable by apply pluck_indexable, indexable_ranked.
  rewrite !bind_Ok.
  change (mapM (add_keywords set_iter) []) with (Ok (@nil plugin)).
  cbn [mbind result_bind mret result_ret names_of].
  rewrite !fmap_cons, fmap_nil, !name_with_keywords.
  reflexivity.
Qed.

(** C8 (search ranking order).  Whenever the build of the search index
    returns, the records come out in descending order of the composite
    key (popularity count, star count, rating), a missing count being
    zero and each component breaking the ties of the one before: every
    record ranks at least as high as every record after it; and they are
    the plucked records of the table, rearranged, each with its keywords.
    The build does return for a table of indexable records.  The records
    with popularity counts 5, 5, 1, star counts 2, 9, 100 and ratings
    1, 1, 1 come out as the second, the first, the third. *)
Theorem get_search_index_sorted `{T : Text}
    (set_iter : gset string → list string)
    (t : table) :
  (∀ out, get_search_index set_iter t = Ok out →
          StronglySorted rank_ge out ∧
          ∃ sorted, sorted ≡ₚ pluck plucked_fields <$> t ∧
                    Forall2 (λ p q, add_keywords set_iter p = Ok q) sorted out) ∧
  (Forall indexable t → ∃ out, get_search_index set_iter t = Ok out) ∧
  names_of (get_search_index set_iter ranking_table)
  = Ok [VStr "index1"; VStr "index0"; VStr "index2"].
Proof.
  split; [ | split].
  - intros out. unfold get_search_index.
    destruct (sort_plugins (pluck plucked_fields <$> t)) as [sorted | ] eqn:E;
      [ | discriminate].
    apply sort_plugins_sorted in E as [Hperm Hsorted].
    intros H. apply mapM_result_Forall2 in H. split.
    + apply Sorted_StronglySorted; [apply rank_ge_trans | ].
      by apply (add_keywords_sorted set_iter sorted out).
    + by exists sorted.
  - intros Ht. unfold get_search_index.
    assert (Hp : Forall indexable (pluck plucked_fields <$> t)).
    { apply Forall_fmap. eapply Forall_impl; [exact Ht | ].
      intros d. apply pluck_indexable. }
    destruct (sort_plugins_total (pluck plucked_fields <$> t)) as [sorted E].
    { eapply Forall_impl; [exact Hp | ]. by intros d [? _]. }
    rewrite E. apply sort_plugins_sorted in E as [Hperm _].
    apply mapM_result_total. rewrite Hperm.
    eapply Forall_impl; [exact Hp | ].
    intros d (_ & Htext & Htok). by apply add_keywords_total.
  - apply ranking_table_names.
Qed.

Lemma get_search_index_sorted_witness :
  ∃ out, @get_search_index str_text elements ranking_table = Ok out ∧
         StronglySorted rank_ge out.
Proof.
  destruct (proj1 (proj2 (@get_search_index_sorted str_text elements
                            ranking_table)))
    as [out Hout].
  { unfold ranking_table.
    repeat (constructor; [apply indexable_ranked | ]). constructor. }
  exists out. split; [exact Hout | ].
  exact (proj1 (proj1 (@get_search_index_sorted str_text elements
                         ranking_table)
                  out Hout)).
Defined.

(* ===================================================================== *)
(** * Further properties of the merge                                     *)
(* ===================================================================== *)

Lemma py_cmp_antisym (a b : value) : py_cmp a b = CompOpp (py_cmp b a).
Proof.
  revert b. induction a as [ | x | s | l IH ] using value_ind';
    intros [ | y | s' | m ]; simpl; try done.
  - apply Z.compare_antisym.
  - apply String.compare_antisym.
  - revert m. induction IH as [ | v l Hv _ IHl ]; intros [ | w m ]; try done.
    rewrite (Hv w). destruct (py_cmp w v); simpl; [apply IHl | done | done].
Qed.

Lemma py_gt_asym (a b : value) : py_gt a b = true → py_gt b a = false.
Proof.
  unfold py_gt. rewrite (py_cmp_antisym b a). by destruct (py_cmp a b).
Qed.

(** Authority is asymmetric: of two records at most one is more
    authoritative than the other, so the direction of the overlay in
    [update_plugin] does not depend on anything but the two records. *)
Theorem is_more_authoritative_asym (a b : plugin)
    (H : is_more_authoritative a b = true) :
  is_more_authoritative b a = false.
Proof.
  destruct (is_more_authoritative b a) eqn:E; [ | done].
  apply is_more_authoritative_iff in H as (_ & _ & _ & Hab).
  apply is_more_authoritative_iff in E as (_ & _ & _ & Hba).
  destruct Hab as [Hab | [Heq Hab]], Hba as [Hba | [Heq' Hba]].
  - apply py_gt_asym in Hab. congruence.
  - rewrite Heq', py_gt_irrefl in Hab. discriminate.
  - rewrite Heq, py_gt_irrefl in Hba. discriminate.
  - apply py_gt_asym in Hab. congruence.
Qed.

Lemma is_more_authoritative_asym_witness :
  is_more_authoritative syntastic_mirror syntastic_author = false.
Proof.
  apply (is_more_authoritative_asym syntastic_author syntastic_mirror).
  reflexivity.
Defined.

(** Where both records hold a value for a field other than the two
    timestamps, the merged record holds the value of the new record,
    unless the old record is the more authoritative one: then it holds the
    value of the old record. *)
Theorem update_plugin_conflict (old new : plugin) (f : string) (vo vn : value)
    (Hf : f ≠ "updated_at" ∧ f ≠ "created_at")
    (Hold : present old f vo) (Hnew : present new f vn) :
  update_plugin old new !! f
  = Some (if is_more_authoritative old new then vo else vn).
Proof.
  destruct Hf as [Hu Hc]. rewrite update_plugin_lookup.
  rewrite !decide_False by done. unfold overlay.
  destruct (is_more_authoritative old new); by apply merge_takes_overlay.
Qed.

Lemma update_plugin_conflict_witness :
  update_plugin syntastic_author syntastic_mirror !! "github_stars"
    = Some (VInt 3000) ∧
  update_plugin syntastic_mirror syntastic_author !! "github_stars"
    = Some (VInt 3000).
Proof.
  split.
  - rewrite (update_plugin_conflict syntastic_author syntastic_mirror
               "github_stars" (VInt 3000) (VInt 12));
      [ vm_compute; reflexivity
      | split; discriminate
      | split; [vm_compute; reflexivity | discriminate]
      | split; [vm_compute; reflexivity | discriminate] ].
  - rewrite (update_plugin_conflict syntastic_mirror syntastic_author
               "github_stars" (VInt 12) (VInt 3000));
      [ vm_compute; reflexivity
      | split; discriminate
      | split; [vm_compute; reflexivity | discriminate]
      | split; [vm_compute; reflexivity | discriminate] ].
Defined.

Lemma merge_all_none (old new : plugin) :
  map_Forall (λ _ v, v = VNone) new → _merge_dict_except_none old new = old.
Proof.
  intros Hnew. unfold _merge_dict_except_none.
  assert (Hempty : filter (λ kv : string * value, is_not_none kv.2 = true) new
                   = (∅ : plugin)).
  { apply map_empty. intros k. apply map_lookup_filter_None. right.
    intros v Hk Hv. simpl in Hv. by rewrite (Hnew k v Hk) in Hv. }
  rewrite Hempty. apply (left_id_L ∅ (∪)).
Qed.

(** A scrape that has nothing to say, all of its values being [None] (or
    there being none), leaves the record as it is. *)
Theorem update_plugin_nothing_new (old new : plugin)
    (Hnew : map_Forall (λ _ v, v = VNone) new) :
  update_plugin old new = old.
Proof.
  assert (Hget : ∀ f, get new f = VNone).
  { intros f. unfold get. destruct (new !! f) as [v | ] eqn:E; [ | done].
    exact (Hnew f v E). }
  unfold update_plugin, is_more_authoritative.
  rewrite !Hget. simpl. rewrite !andb_false_r. simpl.
  by apply merge_all_none.
Qed.

Lemma update_plugin_nothing_new_witness :
  update_plugin syntastic_author
    (list_to_map [("vimorg_id", VNone); ("github_homepage", VNone)])
  = syntastic_author.
Proof.
  apply (update_plugin_nothing_new syntastic_author).
  intros k v Hk.
  destruct (decide (k = "vimorg_id")) as [-> | ];
    [by injection Hk | ].
  destruct (decide (k = "github_homepage")) as [-> | ];
    [by injection Hk | ].
  exfalso. simpl in Hk.
  rewrite !lookup_insert_ne in Hk by done. by rewrite lookup_empty in Hk.
Defined.

(* ===================================================================== *)
(** * Further properties of the store and of ingestion                    *)
(* ===================================================================== *)

Lemma has_key_true (k : value) (d : plugin) :
  has_key k d = true ↔ d !! "slug" = Some k.
Proof.
  unfold has_key. destruct (d !! "slug") as [k' | ]; [ | done].
  rewrite value_eqb_eq. split; congruence.
Qed.

Lemma table_get_None (t : table) (k : value) :
  table_get t k = None ↔ Forall (λ d : plugin, d !! "slug" ≠ Some k) t.
Proof.
  unfold table_get. induction t as [ | d t IH ]; simpl.
  - split; [constructor | done].
  - destruct (has_key k d) eqn:E.
    + apply has_key_true in E. split; [discriminate | ].
      intros H. apply Forall_inv in H. done.
    + rewrite IH. split.
      * intros H. constructor; [ | done]. intros Hk.
        apply has_key_true in Hk. congruence.
      * intros H. by apply Forall_inv_tail in H.
Qed.

Lemma table_get_Some (t : table) (k : value) (d : plugin) :
  table_get t k = Some d → d ∈ t ∧ d !! "slug" = Some k.
Proof.
  unfold table_get. intros H. apply List.find_some in H as [Hin Hk].
  split; [by apply list_elem_of_In | by apply has_key_true].
Qed.

Lemma table_get_app (t u : table) (k : value) :
  table_get (t ++ u) k
  = match table_get t k with Some d => Some d | None => table_get u k end.
Proof.
  unfold table_get. induction t as [ | d t IH ]; simpl; [done | ].
  by destruct (has_key k d).
Qed.

Lemma table_replace_length (doc : plugin) (t : table) :
  length (table_replace doc t) = length t.
Proof.
  induction t as [ | d t IH ]; simpl; [done | ].
  destruct (has_key (get doc "slug") d); simpl; congruence.
Qed.

(** Replacing a document by one with the same key leaves the keys of the
    table as they are. *)
Lemma table_replace_slugs (doc : plugin) (t : table) :
  slugs (table_replace doc t) = slugs t.
Proof.
  unfold slugs. induction t as [ | d t IH ]; [done | ].
  cbn [table_replace].
  destruct (has_key (get doc "slug") d) eqn:E; rewrite !fmap_cons;
    [ | by rewrite IH].
  apply has_key_true in E. f_equal. unfold get at 2. by rewrite E.
Qed.

Lemma table_replace_Forall (P : plugin → Prop) (doc : plugin) (t : table) :
  P doc → Forall P t → Forall P (table_replace doc t).
Proof.
  intros Hdoc. induction 1 as [ | d t Hd Ht IH ]; simpl; [constructor | ].
  destruct (has_key (get doc "slug") d); constructor; done.
Qed.

Lemma not_in_slugs (t : table) (k : value) :
  keyed t → table_get t k = None → k ∉ slugs t.
Proof.
  intros Hk Hnone. apply table_get_None in Hnone. unfold slugs.
  intros Hin. apply list_elem_of_fmap in Hin as (d & -> & Hd).
  unfold keyed in Hk. rewrite Forall_forall in Hk, Hnone.
  destruct (Hk d Hd) as [k' Hk']. apply (Hnone d Hd).
  unfold get. by rewrite Hk'.
Qed.

Lemma table_insert_one_well_formed (upsert : bool) (t : table) (doc : plugin) :
  is_Some (doc !! "slug") → schema_complete doc →
  well_formed t → well_formed (table_insert_one upsert t doc).
Proof.
  intros Hdoc Hcomplete (Hkeyed & Hnodup & Hschema). unfold table_insert_one.
  destruct (table_get t (get doc "slug")) as [d | ] eqn:E.
  - destruct upsert; [ | done]. split; [ | split].
    + by apply table_replace_Forall.
    + by rewrite table_replace_slugs.
    + by apply table_replace_Forall.
  - split; [ | split].
    + apply Forall_app. split; [done | by repeat constructor].
    + unfold slugs. rewrite fmap_app. apply NoDup_app. split; [done | split].
      * intros k Hk Hin. apply list_elem_of_singleton in Hin. subst k.
        by apply (not_in_slugs t (get doc "slug")).
      * apply NoDup_singleton.
    + apply Forall_app. split; [done | by repeat constructor].
Qed.

Lemma table_insert_well_formed (docs : list plugin) (upsert : bool) (t : table) :
  keyed docs → Forall schema_complete docs →
  well_formed t → well_formed (table_insert docs upsert t).
Proof.
  unfold table_insert. intros Hk Hs. revert t.
  induction docs as [ | d docs IH ]; intros t Ht; simpl; [done | ].
  apply Forall_cons in Hk as [Hd Hk]. apply Forall_cons in Hs as [Hc Hs].
  apply IH; [done | done | ]. by apply table_insert_one_well_formed.
Qed.

Lemma schema_complete_union (p : plugin) : schema_complete (p ∪ _ROW_SCHEMA).
Proof.
  intros f [v Hv]. destruct (p !! f) as [w | ] eqn:E.
  - exists w. by apply lookup_union_Some_l.
  - exists v. rewrite lookup_union_r; done.
Qed.

Lemma map_plugin_complete (slugify : string → string) (t : table)
    (shuffled : list string) (p d : plugin) :
  map_plugin slugify t shuffled p = Ok d → schema_complete d.
Proof.
  unfold map_plugin.
  destruct (if negb (truthy (get p "slug")) then _ else _) as [q | ];
    [ | discriminate].
  intros [= <-]. apply schema_complete_union.
Qed.

Lemma map_plugins_complete (slugify : string → string) (t : table)
    (rnd : nat → list string) (i : nat) (plugins docs : list plugin) :
  map_plugins slugify t rnd i plugins = Ok docs → Forall schema_complete docs.
Proof.
  revert i docs. induction plugins as [ | p plugins IH ]; intros i docs; simpl.
  - intros [= <-]. constructor.
  - destruct (map_plugin slugify t (rnd i) p) as [d | ] eqn:E; [ | discriminate].
    destruct (map_plugins slugify t rnd (S i) plugins) as [ds | ] eqn:Es;
      [ | discriminate].
    intros [= <-]. constructor; [by eapply map_plugin_complete | by eapply IH].
Qed.

Lemma has_key_other (k k' : value) (d : plugin) :
  d !! "slug" = Some k → k' ≠ k → has_key k' d = false.
Proof.
  intros Hd Hne. unfold has_key. rewrite Hd. apply value_eqb_neq. congruence.
Qed.

(** Reading back after a replacement: the new document is found under
    its key, and every other key reads as before. *)
Lemma table_get_replace (doc : plugin) (t : table) (k : value) :
  doc !! "slug" = Some k → is_Some (table_get t k) →
  table_get (table_replace doc t) k = Some doc ∧
  ∀ k', k' ≠ k → table_get (table_replace doc t) k' = table_get t k'.
Proof.
  intros Hdoc. unfold table_get. induction t as [ | d t IH ]; simpl.
  - intros [? ?]. discriminate.
  - rewrite (get_lookup_Some doc "slug" k Hdoc).
    destruct (has_key k d) eqn:E; simpl.
    + intros _. apply has_key_true in E. split.
      * by rewrite (proj2 (has_key_true k doc) Hdoc).
      * intros k' Hne.
        by rewrite (has_key_other k k' doc), (has_key_other k k' d).
    + intros Hsome. destruct (IH Hsome) as [IH1 IH2]. split.
      * by rewrite E.
      * intros k' Hne. destruct (has_key k' d); [done | by apply IH2].
Qed.

Lemma table_get_insert_one (upsert : bool) (t : table) (doc : plugin)
    (k : value) :
  doc !! "slug" = Some k → upsert = true ∨ table_get t k = None →
  table_get (table_insert_one upsert t doc) k = Some doc ∧
  ∀ k', k' ≠ k → table_get (table_insert_one upsert t doc) k' = table_get t k'.
Proof.
  intros Hdoc Hcase. unfold table_insert_one.
  rewrite (get_lookup_Some doc "slug" k Hdoc).
  destruct (table_get t k) as [d | ] eqn:E.
  - destruct Hcase as [-> | ?]; [ | discriminate].
    apply table_get_replace; [done | ]. rewrite E. by eexists.
  - split.
    + rewrite table_get_app, E. unfold table_get. simpl.
      by rewrite (proj2 (has_key_true k doc) Hdoc).
    + intros k' Hne. rewrite table_get_app.
      destruct (table_get t k'); [done | ]. unfold table_get. simpl.
      by rewrite (has_key_other k k' doc).
Qed.

Lemma lookup_with_normalized_name (p : plugin) (f : string) :
  f ≠ "normalized_name" → with_normalized_name p !! f = p !! f.
Proof.
  intros Hf. unfold with_normalized_name.
  destruct (negb _); [ | done]. by rewrite lookup_insert_ne.
Qed.

Lemma map_plugin_with_slug (slugify : string → string) (t : table)
    (shuffled : list string) (p : plugin) :
  truthy (get p "slug") = true →
  map_plugin slugify t shuffled p = Ok (with_normalized_name p ∪ _ROW_SCHEMA).
Proof. unfold map_plugin, with_normalized_name. by intros ->. Qed.

Lemma insert_preserves_well_formed (slugify : string → string)
    (rnd : nat → list string) (plugins : list plugin) (upsert : bool)
    (t t' : table) :
  well_formed t → insert slugify rnd plugins upsert t = Ok t' → well_formed t'.
Proof.
  intros Hwf Hins. unfold insert in Hins.
  destruct (map_plugins slugify t rnd 0 plugins) as [docs | ] eqn:E;
    [ | discriminate].
  injection Hins as <-. apply table_insert_well_formed; [ | | done].
  - by eapply map_plugins_keyed.
  - by eapply map_plugins_complete.
Qed.

(** The invariant of the store.  [insert], of any batch and with or
    without [upsert], keeps the table well formed: every document under a
    slug, no slug twice, and every document with every field of the
    schema. *)
Theorem insert_well_formed (slugify : string → string)
    (rnd : nat → list string) (plugins : list plugin) (upsert : bool)
    (t t' : table)
    (Hwf : well_formed t)
    (Hins : insert slugify rnd plugins upsert t = Ok t') :
  well_formed t'.
Proof. by apply (insert_preserves_well_formed slugify rnd plugins upsert t). Qed.

Lemma well_formed_nerdtree_stored : well_formed [nerdtree_stored].
Proof.
  split; [ | split].
  - repeat constructor. exists (VStr "the-nerd-tree"). reflexivity.
  - apply NoDup_singleton.
  - repeat constructor. apply schema_complete_union.
Defined.

Lemma insert_well_formed_witness :
  insert slugify_sample (λ _, slug_suffixes) [github_scrape; syntastic_scrape]
    false [nerdtree_stored]
  = Ok [nerdtree_stored; new_record "nerdtree" github_scrape;
        new_record "syntastic" syntastic_scrape] ∧
  well_formed [nerdtree_stored; new_record "nerdtree" github_scrape;
               new_record "syntastic" syntastic_scrape].
Proof.
  assert (H : insert slugify_sample (λ _, slug_suffixes)
                [github_scrape; syntastic_scrape] false [nerdtree_stored]
              = Ok [nerdtree_stored; new_record "nerdtree" github_scrape;
                    new_record "syntastic" syntastic_scrape])
    by reflexivity.
  split; [exact H | ].
  exact (insert_well_formed slugify_sample (λ _, slug_suffixes)
           [github_scrape; syntastic_scrape] false [nerdtree_stored] _
           well_formed_nerdtree_stored H).
Defined.

(** An upsert of a plugin that has its slug can be read back: the table
    then holds under that slug the plugin laid over the schema, with every
    field of the plugin (a missing normalized name aside) as the plugin
    has it; the documents under all other slugs are as before, whether or
    not the slug was stored.  No name is needed and nothing is raised. *)
Theorem insert_upsert_get (slugify : string → string)
    (rnd : nat → list string) (p : plugin) (t : table)
    (Hslug : truthy (get p "slug") = true) :
  let doc := with_normalized_name p ∪ _ROW_SCHEMA in
  ∃ t', insert slugify rnd [p] true t = Ok t' ∧
        table_get t' (get p "slug") = Some doc ∧
        (∀ f v, p !! f = Some v → f ≠ "normalized_name" → doc !! f = Some v) ∧
        (∀ k, k ≠ get p "slug" → table_get t' k = table_get t k).
Proof.
  intros doc. exists (table_insert_one true t doc).
  assert (Hdoc : doc !! "slug" = Some (get p "slug")).
  { apply lookup_union_Some_l. rewrite lookup_with_normalized_name by done.
    by apply truthy_get_lookup. }
  split; [ | split; [ | split] ].
  - by rewrite insert_single, map_plugin_with_slug.
  - by apply (proj1 (table_get_insert_one true t doc (get p "slug") Hdoc
                       (or_introl eq_refl))).
  - intros f v Hf Hn. apply lookup_union_Some_l.
    by rewrite lookup_with_normalized_name.
  - intros k Hk.
    by apply (proj2 (table_get_insert_one true t doc (get p "slug") Hdoc
                       (or_introl eq_refl))).
Qed.

Lemma insert_upsert_get_witness :
  ∃ t', insert slugify_sample (λ _, slug_suffixes)
          [<["slug" := VStr "the-nerd-tree"]> nerdtree_rescrape] true
          [nerdtree_stored] = Ok t' ∧
        length t' = 1%nat ∧
        (λ d : plugin, get d "vimorg_rating")
          <$> table_get t' (VStr "the-nerd-tree")
        = Some (VInt 250).
Proof.
  assert (Hslug : truthy (get (<["slug" := VStr "the-nerd-tree"]>
                                 nerdtree_rescrape) "slug") = true)
    by reflexivity.
  destruct (insert_upsert_get slugify_sample (λ _, slug_suffixes)
              (<["slug" := VStr "the-nerd-tree"]> nerdtree_rescrape)
              [nerdtree_stored] Hslug) as (t' & Hins & Hget & _ & _).
  exists t'. split; [exact Hins | ].
  assert (Ht' : t' = [with_normalized_name
                        (<["slug" := VStr "the-nerd-tree"]> nerdtree_rescrape)
                      ∪ _ROW_SCHEMA]).
  { assert (H : insert slugify_sample (λ _, slug_suffixes)
                  [<["slug" := VStr "the-nerd-tree"]> nerdtree_rescrape] true
                  [nerdtree_stored]
                = Ok [with_normalized_name
                        (<["slug" := VStr "the-nerd-tree"]> nerdtree_rescrape)
                      ∪ _ROW_SCHEMA]) by reflexivity.
    rewrite H in Hins. by injection Hins. }
  subst t'. split; reflexivity.
Defined.

Lemma table_insert_no_upsert (docs : list plugin) (t : table) :
  ∃ added : list plugin,
    table_insert docs false t = (t ++ added)%list ∧
    (length added ≤ length docs)%nat.
Proof.
  unfold table_insert. revert t.
  induction docs as [ | d docs IH ]; intros t; simpl.
  - exists []. by rewrite app_nil_r.
  - rewrite table_insert_one_no_upsert.
    destruct (table_get t (get d "slug")).
    + destruct (IH t) as (added & -> & Hlen). exists added. split; [done | lia].
    + destruct (IH (t ++ [d])%list) as (added & -> & Hlen).
      exists (d :: added). rewrite <- app_assoc. split; [done | simpl; lia].
Qed.

(** Without [upsert], [insert] only appends: the stored documents stay
    as they are and where they are, and at most one document per plugin
    of the batch is added behind them. *)
Theorem insert_no_upsert_appends (slugify : string → string)
    (rnd : nat → list string) (plugins : list plugin) (t t' : table)
    (Hins : insert slugify rnd plugins false t = Ok t') :
  ∃ added : list plugin,
    t' = (t ++ added)%list ∧ (length added ≤ length plugins)%nat.
Proof.
  unfold insert in Hins.
  destruct (map_plugins slugify t rnd 0 plugins) as [docs | ] eqn:E;
    [ | discriminate].
  injection Hins as <-.
  destruct (table_insert_no_upsert docs t) as (added & -> & Hlen).
  exists added. split; [done | ].
  assert (Hdocs : length docs = length plugins); [ | lia].
  clear Hlen added. revert E. generalize 0%nat. revert docs.
  induction plugins as [ | p plugins IH ]; intros docs i; simpl.
  - by intros [= <-].
  - destruct (map_plugin slugify t (rnd i) p); [ | discriminate].
    destruct (map_plugins slugify t rnd (S i) plugins) as [ds | ] eqn:Es;
      [ | discriminate].
    intros [= <-]. simpl. f_equal. by eapply IH.
Qed.

Lemma insert_no_upsert_appends_witness :
  ∃ added : list plugin,
    [nerdtree_stored; new_record "nerdtree" github_scrape]
    = ([nerdtree_stored] ++ added)%list ∧ (length added ≤ 1)%nat.
Proof.
  apply (insert_no_upsert_appends slugify_sample (λ _, slug_suffixes)
           [github_scrape] [nerdtree_stored]).
  reflexivity.
Defined.

Lemma _slug_taken_stored (t : table) (slug : string) (d : plugin) :
  table_get t (VStr slug) = Some d → _slug_taken t slug = true.
Proof.
  intros H. unfold _slug_taken. rewrite H.
  apply table_get_Some in H as [_ Hk].
  destruct (Nat.eqb_spec (size d) 0) as [Hz | ]; [ | done].
  apply map_size_empty_inv in Hz. subst d. by rewrite lookup_empty in Hk.
Qed.

Lemma new_record_lookup_slug (slug : string) (p : plugin) :
  new_record slug p !! "slug" = Some (VStr slug).
Proof.
  unfold new_record. apply lookup_union_Some_l.
  destruct (truthy _).
  - apply lookup_insert_eq.
  - rewrite lookup_insert_ne by done. apply lookup_insert_eq.
Qed.

(** What a generated slug does to the table: the plugin is stored behind
    the documents that were there. *)
Lemma insert_generated (slugify : string → string) (rnd : nat → list string)
    (p : plugin) (upsert : bool) (t : table) (slug : string) :
  absent_or_empty p "slug" →
  _generate_unique_slug slugify t (rnd 0%nat) p = Ok slug →
  insert slugify rnd [p] upsert t = Ok (t ++ [new_record slug p])%list.
Proof.
  intros Hslug Hgen.
  rewrite insert_single, (map_plugin_new_record slugify t (rnd 0%nat) p slug)
    by done.
  change (Ok (table_insert_one upsert t (new_record slug p))
          = Ok (t ++ [new_record slug p])%list).
  unfold table_insert_one. rewrite new_record_slug.
  rewrite (_slug_taken_false t slug); [done | ].
  by apply (_generate_unique_slug_untaken slugify t (rnd 0%nat) p).
Qed.

(** Slugs handed out one after the other are distinct: once a plugin has
    been inserted under the slug generated for it, that slug is taken,
    and no later generation returns it. *)
Theorem insert_then_generate_distinct (slugify : string → string)
    (rnd : nat → list string) (p1 : plugin) (upsert : bool) (t : table)
    (slug1 : string)
    (Hslug : absent_or_empty p1 "slug")
    (Hgen : _generate_unique_slug slugify t (rnd 0%nat) p1 = Ok slug1) :
  ∃ t1, insert slugify rnd [p1] upsert t = Ok t1 ∧
        _slug_taken t1 slug1 = true ∧
        ∀ shuffled p2 slug2,
          _generate_unique_slug slugify t1 shuffled p2 = Ok slug2 →
          slug2 ≠ slug1.
Proof.
  exists (t ++ [new_record slug1 p1])%list.
  assert (Htaken : _slug_taken (t ++ [new_record slug1 p1])%list slug1 = true).
  { apply (_slug_taken_stored _ slug1 (new_record slug1 p1)).
    rewrite table_get_app, (_slug_taken_false t slug1).
    - unfold table_get. simpl.
      by rewrite (proj2 (has_key_true _ _) (new_record_lookup_slug slug1 p1)).
    - by apply (_generate_unique_slug_untaken slugify t (rnd 0%nat) p1). }
  split; [by apply insert_generated | split; [done | ] ].
  intros shuffled p2 slug2 Hgen2 ->.
  apply _generate_unique_slug_untaken in Hgen2. congruence.
Qed.

Lemma insert_then_generate_distinct_witness :
  _generate_unique_slug slugify_sample
    [nerdtree_stored; new_record "nerdtree" github_scrape] slug_suffixes
    github_scrape
  = Ok "nerdtree-all-too-well" ∧
  "nerdtree-all-too-well" ≠ "nerdtree".
Proof.
  assert (Hslug : absent_or_empty github_scrape "slug") by reflexivity.
  assert (Hgen : _generate_unique_slug slugify_sample [nerdtree_stored]
                   slug_suffixes github_scrape = Ok "nerdtree")
    by reflexivity.
  destruct (insert_then_generate_distinct slugify_sample (λ _, slug_suffixes)
              github_scrape false [nerdtree_stored] "nerdtree" Hslug Hgen)
    as (t1 & Hins & _ & Hdistinct).
  assert (Ht1 : t1 = [nerdtree_stored; new_record "nerdtree" github_scrape]).
  { assert (H : insert slugify_sample (λ _, slug_suffixes) [github_scrape]
                  false [nerdtree_stored]
                = Ok [nerdtree_stored; new_record "nerdtree" github_scrape])
      by reflexivity.
    rewrite H in Hins. by injection Hins. }
  subst t1.
  assert (Hgen2 : _generate_unique_slug slugify_sample
                    [nerdtree_stored; new_record "nerdtree" github_scrape]
                    slug_suffixes github_scrape
                  = Ok "nerdtree-all-too-well") by reflexivity.
  split; [exact Hgen2 | ].
  exact (Hdistinct slug_suffixes github_scrape "nerdtree-all-too-well" Hgen2).
Defined.

Lemma _generate_unique_slug_free (slugify : string → string) (t : table)
    (shuffled : list string) (p : plugin) (name : string) :
  candidate_name p = VStr name → name ≠ "" →
  _slug_taken t (slugify name) = false →
  _generate_unique_slug slugify t shuffled p = Ok (slugify name).
Proof.
  intros Hname Hne Hfree. unfold _generate_unique_slug. rewrite Hname. simpl.
  apply String.eqb_neq in Hne. by rewrite Hne, Hfree.
Qed.

Lemma table_replace_app_None (doc : plugin) (t u : table) :
  table_get t (get doc "slug") = None →
  table_replace doc (t ++ u) = (t ++ table_replace doc u)%list.
Proof.
  unfold table_get. induction t as [ | d t IH ]; simpl; [done | ].
  destruct (has_key (get doc "slug") d); [discriminate | ].
  intros H. by rewrite IH.
Qed.

(** Within one batch the slugs are not told apart: every plugin of a
    batch gets its slug from the table as it is before the write, so two
    plugins with the same name, whose slug is free, get the same slug.
    Without [upsert] only the first of them is stored; with [upsert] the
    second takes the place of the first. *)
Theorem insert_batch_same_name (slugify : string → string)
    (rnd : nat → list string) (p1 p2 : plugin) (t : table) (name : string)
    (Hname1 : candidate_name p1 = VStr name)
    (Hname2 : candidate_name p2 = VStr name)
    (Hne : name ≠ "")
    (Hslug1 : absent_or_empty p1 "slug") (Hslug2 : absent_or_empty p2 "slug")
    (Hfree : _slug_taken t (slugify name) = false) :
  insert slugify rnd [p1; p2] false t
  = Ok (t ++ [new_record (slugify name) p1])%list ∧
  insert slugify rnd [p1; p2] true t
  = Ok (t ++ [new_record (slugify name) p2])%list.
Proof.
  assert (Hdocs : map_plugins slugify t rnd 0 [p1; p2]
                  = Ok [new_record (slugify name) p1;
                        new_record (slugify name) p2]).
  { simpl.
    rewrite (map_plugin_new_record slugify t (rnd 0%nat) p1 (slugify name))
      by (done || by apply (_generate_unique_slug_free _ _ _ _ name)).
    rewrite (map_plugin_new_record slugify t (rnd 1%nat) p2 (slugify name))
      by (done || by apply (_generate_unique_slug_free _ _ _ _ name)).
    reflexivity. }
  assert (Hnone : table_get t (VStr (slugify name)) = None)
    by by apply _slug_taken_false.
  assert (Hsome : table_get (t ++ [new_record (slugify name) p1])%list
                    (VStr (slugify name))
                  = Some (new_record (slugify name) p1)).
  { rewrite table_get_app, Hnone. unfold table_get. simpl.
    by rewrite (proj2 (has_key_true _ _) (new_record_lookup_slug _ p1)). }
  unfold insert. rewrite Hdocs.
  change (Ok (table_insert_one false (table_insert_one false t
               (new_record (slugify name) p1)) (new_record (slugify name) p2))
          = Ok (t ++ [new_record (slugify name) p1])%list ∧
          Ok (table_insert_one true (table_insert_one true t
               (new_record (slugify name) p1)) (new_record (slugify name) p2))
          = Ok (t ++ [new_record (slugify name) p2])%list).
  unfold table_insert_one. rewrite !new_record_slug, Hnone, Hsome.
  split; [done | ]. f_equal.
  rewrite table_replace_app_None by by rewrite new_record_slug.
  simpl. rewrite new_record_slug.
  by rewrite (proj2 (has_key_true _ _) (new_record_lookup_slug _ p1)).
Qed.

Lemma insert_batch_same_name_witness :
  insert slugify_sample (λ _, slug_suffixes)
    [github_scrape; <["github_stars" := VInt 1]> github_scrape] false
    [nerdtree_stored]
  = Ok ([nerdtree_stored] ++ [new_record "nerdtree" github_scrape])%list.
Proof.
  apply (insert_batch_same_name slugify_sample (λ _, slug_suffixes)
           github_scrape (<["github_stars" := VInt 1]> github_scrape)
           [nerdtree_stored] "nerdtree");
    (reflexivity || discriminate).
Defined.

Lemma table_get_elem (t : table) (d : plugin) (k : value) :
  d ∈ t → d !! "slug" = Some k → is_Some (table_get t k).
Proof.
  intros Hin Hk. destruct (table_get t k) as [d' | ] eqn:E; [by eexists | ].
  apply table_get_None in E. rewrite Forall_forall in E.
  by destruct (E d Hin).
Qed.

Lemma update_plugin_keeps_slug (p0 pd : plugin) :
  truthy (get p0 "slug") = true → absent pd "slug" →
  update_plugin p0 pd !! "slug" = Some (get p0 "slug").
Proof.
  intros Ht Habs. rewrite update_plugin_lookup.
  rewrite !decide_False by done. unfold overlay.
  assert (Hp : present p0 "slug" (get p0 "slug")).
  { split; [by apply truthy_get_lookup | ].
    intros E. by rewrite E in Ht. }
  destruct (is_more_authoritative p0 pd).
  - by apply merge_takes_overlay.
  - apply merge_keeps_base; [apply Hp | done].
Qed.

(** The slug is stable.  When exactly one stored record matches and the
    scraped data has no slug, the record is replaced, where it stands and
    under its slug, by the merge laid over the schema: the slugs of the
    table are the same after as before, in the same order, and the log is
    not written to. *)
Theorem add_scraped_data_one_match (slugify : string → string)
    (shuffled : list string) (plugin_data : plugin) (w : world) (p0 : plugin)
    (Hfound : _find_matching_vimorg_plugins plugin_data (plugins_table w)
              = Some [p0])
    (Hslug0 : truthy (get p0 "slug") = true)
    (Hslug : absent plugin_data "slug") :
  let doc := with_normalized_name (update_plugin p0 plugin_data) ∪ _ROW_SCHEMA in
  add_scraped_data slugify shuffled plugin_data w
  = Ok (World (table_replace doc (plugins_table w)) (log w)) ∧
  doc !! "slug" = p0 !! "slug" ∧
  slugs (table_replace doc (plugins_table w)) = slugs (plugins_table w).
Proof.
  intros doc.
  pose proof (update_plugin_keeps_slug p0 plugin_data Hslug0 Hslug) as Hu.
  assert (Hdoc : doc !! "slug" = Some (get p0 "slug")).
  { apply lookup_union_Some_l. by rewrite lookup_with_normalized_name. }
  assert (Hin : p0 ∈ plugins_table w).
  { unfold _find_matching_vimorg_plugins in Hfound.
    destruct (truthy (get plugin_data "vimorg_id")); [ | discriminate].
    injection Hfound as Hfound. unfold table_get_all_vimorg_id in Hfound.
    apply list_elem_of_In.
    apply (proj1 (proj1 (List.filter_In _ p0 (plugins_table w))
                    ltac:(rewrite Hfound; by left))). }
  split; [ | split].
  - unfold add_scraped_data. rewrite Hfound, insert_single.
    rewrite map_plugin_with_slug
      by (rewrite (get_lookup_Some _ _ _ Hu); exact Hslug0).
    change (Ok (World (table_insert_one true (plugins_table w) doc) (log w))
            = Ok (World (table_replace doc (plugins_table w)) (log w))).
    unfold table_insert_one. rewrite (get_lookup_Some _ _ _ Hdoc).
    destruct (table_get_elem (plugins_table w) p0 (get p0 "slug") Hin
                (truthy_get_lookup _ _ Hslug0)) as [d ->].
    done.
  - rewrite Hdoc. symmetry. by apply truthy_get_lookup.
  - apply table_replace_slugs.
Qed.

Lemma add_scraped_data_one_match_witness :
  let doc := with_normalized_name (update_plugin nerdtree_stored nerdtree_rescrape)
             ∪ _ROW_SCHEMA in
  add_scraped_data slugify_sample slug_suffixes nerdtree_rescrape
    (World [nerdtree_stored] [])
  = Ok (World (table_replace doc [nerdtree_stored]) []) ∧
  doc !! "slug" = nerdtree_stored !! "slug" ∧
  slugs (table_replace doc [nerdtree_stored]) = slugs [nerdtree_stored].
Proof.
  assert (Hfound : _find_matching_vimorg_plugins nerdtree_rescrape
                     (plugins_table (World [nerdtree_stored] []))
                   = Some [nerdtree_stored]) by reflexivity.
  assert (Hslug0 : truthy (get nerdtree_stored "slug") = true) by reflexivity.
  assert (Hslug : absent nerdtree_rescrape "slug") by (right; reflexivity).
  exact (add_scraped_data_one_match slugify_sample slug_suffixes
           nerdtree_rescrape (World [nerdtree_stored] []) nerdtree_stored
           Hfound Hslug0 Hslug).
Defined.

(** ** Scraping the same data again *)

Lemma lookup_filled (u : plugin) (f : string) :
  (with_normalized_name u ∪ _ROW_SCHEMA) !! f
  = if decide (f = "normalized_name") then
      if truthy (get u "normalized_name") then u !! "normalized_name"
      else Some (VStr "meredith grey swift")
    else match u !! f with
         | Some v => Some v
         | None => _ROW_SCHEMA !! f
         end.
Proof.
  rewrite lookup_union. unfold with_normalized_name.
  case_decide as Hf.
  - subst f. destruct (truthy (get u "normalized_name")) eqn:E; cbn [negb].
    + apply truthy_get_lookup in E. rewrite E.
      by destruct (_ROW_SCHEMA !! "normalized_name").
    + rewrite lookup_insert_eq.
      by destruct (_ROW_SCHEMA !! "normalized_name").
  - destruct (negb _); rewrite ?lookup_insert_ne by done;
      by destruct (u !! f), (_ROW_SCHEMA !! f).
Qed.

Lemma new_record_filled (slug : string) (p : plugin) :
  new_record slug p
  = with_normalized_name (<["slug" := VStr slug]> p) ∪ _ROW_SCHEMA.
Proof.
  unfold new_record, with_normalized_name. by destruct (truthy _).
Qed.

(** The fields of the record stored for a scrape. *)
Lemma lookup_new_record (slug : string) (p : plugin) (f : string) :
  new_record slug p !! f
  = if decide (f = "slug") then Some (VStr slug)
    else if decide (f = "normalized_name") then
      if truthy (get p "normalized_name") then p !! "normalized_name"
      else Some (VStr "meredith grey swift")
    else match p !! f with
         | Some v => Some v
         | None => _ROW_SCHEMA !! f
         end.
Proof.
  rewrite new_record_filled, lookup_filled.
  assert (Hnn : get (<["slug" := VStr slug]> p) "normalized_name"
                = get p "normalized_name")
    by (unfold get; by rewrite lookup_insert_ne).
  rewrite Hnn. destruct (decide (f = "slug")) as [-> | Hs].
  - rewrite decide_False by done. by rewrite lookup_insert_eq.
  - destruct (decide (f = "normalized_name")) as [-> | Hn].
    + by rewrite lookup_insert_ne.
    + by rewrite lookup_insert_ne.
Qed.

Section Rescrape.

Variables (slug : string) (pd : plugin).
Hypothesis Hslug : absent pd "slug".

Let d : plugin := new_record slug pd.

(** Outside the slug and the normalized name, the stored record reads
    what the scrape reads wherever the scrape has the key. *)
Lemma stored_get (f : string) (v : value) :
  f ≠ "slug" → f ≠ "normalized_name" → pd !! f = Some v → d !! f = Some v.
Proof.
  intros H1 H2 Hv. subst d. rewrite lookup_new_record.
  rewrite !decide_False by done. by rewrite Hv.
Qed.

Lemma stored_not_more_authoritative : is_more_authoritative d pd = false.
Proof.
  unfold is_more_authoritative.
  assert (Hurl : get d "github_url" = get pd "github_url").
  { unfold get. subst d. rewrite lookup_new_record.
    rewrite !decide_False by done. by destruct (pd !! "github_url"). }
  rewrite Hurl, value_eqb_refl.
  by destruct (truthy (get pd "github_url")).
Qed.

(** Merging the scrape into the record stored for it changes nothing but,
    at most, the normalized name. *)
Lemma rescrape_lookup (f : string) :
  f ≠ "normalized_name" → update_plugin d pd !! f = d !! f.
Proof.
  intros Hnn.
  assert (Hover : overlay d pd !! f = d !! f).
  { unfold overlay. rewrite stored_not_more_authoritative.
    rewrite lookup_merge_dict_except_none.
    destruct (pd !! f) as [v | ] eqn:E; [ | done].
    destruct (is_not_none v) eqn:Hv; [ | done].
    destruct (decide (f = "slug")) as [-> | Hs].
    - destruct Hslug as [H | H]; rewrite H in E; [discriminate | ].
      injection E as <-. discriminate.
    - symmetry. by apply stored_get. }
  assert (Hstamp : ∀ g, g ≠ "slug" → g ≠ "normalized_name" →
            truthy (get d g) && truthy (get pd g) = true →
            get d g = get pd g ∧ d !! g = Some (get pd g)).
  { intros g H1 H2 Hg. apply andb_true_iff in Hg as [_ Hg].
    apply truthy_get_lookup in Hg.
    pose proof (stored_get g _ H1 H2 Hg) as Hd.
    split; [by apply get_lookup_Some | done]. }
  rewrite update_plugin_lookup.
  case_decide as Hc; [subst f | case_decide as Hu; [subst f | done] ].
  - destruct (truthy (get d "created_at") && truthy (get pd "created_at"))
      eqn:E; [ | done].
    destruct (Hstamp "created_at" ltac:(done) ltac:(done) E) as [-> ->].
    by rewrite py_min_same.
  - destruct (truthy (get d "updated_at") && truthy (get pd "updated_at"))
      eqn:E; [ | done].
    destruct (Hstamp "updated_at" ltac:(done) ltac:(done) E) as [-> ->].
    by rewrite py_max_same.
Qed.

Lemma rescrape_normalized_name :
  update_plugin d pd !! "normalized_name"
  = match pd !! "normalized_name" with
    | Some v => if is_not_none v then Some v else d !! "normalized_name"
    | None => d !! "normalized_name"
    end.
Proof.
  rewrite update_plugin_lookup. rewrite !decide_False by done.
  unfold overlay. rewrite stored_not_more_authoritative.
  apply lookup_merge_dict_except_none.
Qed.

(** The document that the second ingestion writes is the stored one. *)
Lemma rescrape_document :
  with_normalized_name (update_plugin d pd) ∪ _ROW_SCHEMA = d.
Proof.
  pose proof rescrape_normalized_name as Hun.
  pose proof rescrape_lookup as Hul.
  assert (Hdn : d !! "normalized_name"
                = if truthy (get pd "normalized_name")
                  then pd !! "normalized_name"
                  else Some (VStr "meredith grey swift")).
  { subst d. rewrite lookup_new_record.
    rewrite decide_False by done. by rewrite decide_True. }
  assert (Hd0 : ∀ f, f ≠ "normalized_name" → d !! f = None →
                     _ROW_SCHEMA !! f = None).
  { intros f Hf. subst d. rewrite lookup_new_record.
    rewrite (decide_False (P := f = "normalized_name")) by done.
    case_decide; [discriminate | ]. by destruct (pd !! f). }
  clearbody d. remember (update_plugin d pd) as u eqn:Hu.
  apply map_eq. intros f. rewrite lookup_filled.
  case_decide as Hf.
  - subst f. unfold get at 1. rewrite Hun, Hdn. unfold get.
    destruct (pd !! "normalized_name") as [ [ | z | s | l ] | ];
      cbn [is_not_none default truthy]; reflexivity.
  - rewrite Hul by done.
    destruct (d !! f) as [v | ] eqn:E; [done | by apply Hd0].
Qed.

End Rescrape.

(** Ingestion is idempotent.  When scraped data with a package-index
    identifier and without slug matches no stored record, it is stored as
    a new record; ingesting the same data once more then finds exactly
    that record, merges the data into it and writes back the very same
    document: the table and the log are as after the first ingestion.
    (The generated slug is taken not to be empty, as an empty slug would
    be generated anew.) *)
Theorem add_scraped_data_idempotent (slugify : string → string)
    (shuffled shuffled' : list string) (plugin_data : plugin) (w : world)
    (slug : string)
    (Hid : truthy (get plugin_data "vimorg_id") = true)
    (Hslug : absent plugin_data "slug")
    (Hnone : _find_matching_vimorg_plugins plugin_data (plugins_table w)
             = Some [])
    (Hgen : _generate_unique_slug slugify (plugins_table w) shuffled plugin_data
            = Ok slug)
    (Hne : slug ≠ "") :
  let w1 := World (plugins_table w ++ [new_record slug plugin_data])%list
                  (log w) in
  add_scraped_data slugify shuffled plugin_data w = Ok w1 ∧
  add_scraped_data slugify shuffled' plugin_data w1 = Ok w1.
Proof.
  intros w1. subst w1. destruct w as [t lg]. simpl in *.
  assert (Hfree : table_get t (VStr slug) = None).
  { apply _slug_taken_false.
    by apply (_generate_unique_slug_untaken slugify t shuffled plugin_data). }
  pose proof (rescrape_document slug plugin_data Hslug) as Hdoc.
  pose proof (new_record_lookup_slug slug plugin_data) as Hdslug.
  assert (Hdid : new_record slug plugin_data !! "vimorg_id"
                 = Some (get plugin_data "vimorg_id")).
  { rewrite lookup_new_record. rewrite !decide_False by done.
    by rewrite (truthy_get_lookup _ _ Hid). }
  remember (new_record slug plugin_data) as d eqn:Hd.
  assert (Hall : table_get_all_vimorg_id t (get plugin_data "vimorg_id") = []).
  { unfold _find_matching_vimorg_plugins in Hnone. rewrite Hid in Hnone.
    by injection Hnone. }
  split.
  - unfold add_scraped_data. cbn [plugins_table log]. rewrite Hnone.
    rewrite (insert_generated slugify (λ _, shuffled) plugin_data false t slug);
      [ | by apply absent_not_truthy | done ].
    rewrite <- Hd. reflexivity.
  - assert (Hfound : _find_matching_vimorg_plugins plugin_data (t ++ [d])%list
                     = Some [d]).
    { unfold _find_matching_vimorg_plugins. rewrite Hid. f_equal.
      unfold table_get_all_vimorg_id in *. rewrite List.filter_app, Hall.
      cbn [List.filter app]. by rewrite Hdid, value_eqb_refl. }
    assert (Hdtruthy : truthy (get d "slug") = true).
    { rewrite (get_lookup_Some _ _ _ Hdslug). cbn [truthy].
      apply negb_true_iff. by apply String.eqb_neq. }
    pose proof (update_plugin_keeps_slug d plugin_data Hdtruthy Hslug) as Hu.
    unfold add_scraped_data. cbn [plugins_table log]. rewrite Hfound.
    rewrite insert_single.
    rewrite map_plugin_with_slug
      by (rewrite (get_lookup_Some _ _ _ Hu); exact Hdtruthy).
    rewrite Hdoc.
    change (Ok (World (table_insert_one true (t ++ [d])%list d) lg)
            = Ok (World (t ++ [d])%list lg)).
    unfold table_insert_one. rewrite (get_lookup_Some _ _ _ Hdslug).
    rewrite table_get_app, Hfree. unfold table_get at 1. cbn [List.find].
    rewrite (proj2 (has_key_true _ _) Hdslug).
    rewrite table_replace_app_None
      by (by rewrite (get_lookup_Some _ _ _ Hdslug)).
    cbn [table_replace]. rewrite (get_lookup_Some _ _ _ Hdslug).
    by rewrite (proj2 (has_key_true _ _) Hdslug).
Qed.

Lemma add_scraped_data_idempotent_witness :
  let w1 := World (syntastic_table
                     ++ [new_record "the-nerd-tree" nerdtree_first_scrape])%list
                  [] in
  add_scraped_data slugify_sample slug_suffixes
    nerdtree_first_scrape (World syntastic_table []) = Ok w1 ∧
  add_scraped_data slugify_sample (rev slug_suffixes)
    nerdtree_first_scrape w1 = Ok w1.
Proof.
  assert (Hid : truthy (get nerdtree_first_scrape "vimorg_id") = true)
    by reflexivity.
  assert (Hslug : absent nerdtree_first_scrape "slug") by (left; reflexivity).
  assert (Hnone : _find_matching_vimorg_plugins nerdtree_first_scrape
                    (plugins_table (World syntastic_table [])) = Some [])
    by reflexivity.
  assert (Hgen : _generate_unique_slug slugify_sample
                   (plugins_table (World syntastic_table [])) slug_suffixes
                   nerdtree_first_scrape
                 = Ok "the-nerd-tree") by reflexivity.
  assert (Hne : "the-nerd-tree" ≠ "") by discriminate.
  exact (add_scraped_data_idempotent slugify_sample slug_suffixes
           (rev slug_suffixes) nerdtree_first_scrape (World syntastic_table [])
           "the-nerd-tree" Hid Hslug Hnone Hgen Hne).
Defined.

(** Ingestion keeps the store well formed, whichever of its three paths
    it takes. *)
Theorem add_scraped_data_well_formed (slugify : string → string)
    (shuffled : list string) (plugin_data : plugin) (w w' : world)
    (Hwf : well_formed (plugins_table w))
    (Hadd : add_scraped_data slugify shuffled plugin_data w = Ok w') :
  well_formed (plugins_table w').
Proof.
  unfold add_scraped_data in Hadd.
  destruct (_find_matching_vimorg_plugins plugin_data (plugins_table w))
    as [ [ | p0 [ | p1 rest ] ] | ].
  - destruct (insert _ _ _ _ _) as [t' | ] eqn:E; [ | discriminate].
    injection Hadd as <-. by eapply insert_preserves_well_formed.
  - destruct (insert _ _ _ _ _) as [t' | ] eqn:E; [ | discriminate].
    injection Hadd as <-. by eapply insert_preserves_well_formed.
  - destruct (mapM _ _) as [found | ]; [ | discriminate].
    by injection Hadd as <-.
  - destruct (insert _ _ _ _ _) as [t' | ] eqn:E; [ | discriminate].
    injection Hadd as <-. by eapply insert_preserves_well_formed.
Qed.

Lemma add_scraped_data_well_formed_witness :
  well_formed
    (table_replace
       (with_normalized_name (update_plugin nerdtree_stored nerdtree_rescrape)
        ∪ _ROW_SCHEMA) [nerdtree_stored]).
Proof.
  assert (Hadd : add_scraped_data slugify_sample slug_suffixes nerdtree_rescrape
                   (World [nerdtree_stored] [])
                 = Ok (World (table_replace
                                (with_normalized_name
                                   (update_plugin nerdtree_stored
                                      nerdtree_rescrape) ∪ _ROW_SCHEMA)
                                [nerdtree_stored]) []))
    by reflexivity.
  exact (add_scraped_data_well_formed slugify_sample slug_suffixes
           nerdtree_rescrape (World [nerdtree_stored] []) _
           well_formed_nerdtree_stored Hadd).
Defined.

Lemma table_insert_one_keeps (upsert : bool) (t : table) (doc : plugin)
    (k : value) :
  is_Some (doc !! "slug") → is_Some (table_get t k) →
  is_Some (table_get (table_insert_one upsert t doc) k).
Proof.
  intros [kd Hdoc] Hk. unfold table_insert_one.
  rewrite (get_lookup_Some _ _ _ Hdoc).
  destruct (table_get t kd) as [d0 | ] eqn:E.
  - destruct upsert; [ | done].
    destruct (table_get_replace doc t kd Hdoc) as [Hsame Hother];
      [rewrite E; by eexists | ].
    destruct (value_eqb k kd) eqn:Ek;
      [apply value_eqb_eq in Ek as -> | apply value_eqb_neq in Ek].
    + rewrite Hsame. by eexists.
    + by rewrite Hother.
  - rewrite table_get_app. destruct Hk as [d Hd]. rewrite Hd. by eexists.
Qed.

Lemma table_insert_one_length (upsert : bool) (t : table) (doc : plugin) :
  (length t ≤ length (table_insert_one upsert t doc) ≤ length t + 1)%nat.
Proof.
  unfold table_insert_one. destruct (table_get t (get doc "slug")).
  - destruct upsert; rewrite ?table_replace_length; lia.
  - rewrite length_app. simpl. lia.
Qed.

Lemma insert_one_effects (slugify : string → string) (rnd : nat → list string)
    (p : plugin) (upsert : bool) (t t' : table) :
  insert slugify rnd [p] upsert t = Ok t' →
  (∀ k, is_Some (table_get t k) → is_Some (table_get t' k)) ∧
  (length t ≤ length t' ≤ length t + 1)%nat.
Proof.
  rewrite insert_single.
  destruct (map_plugin slugify t (rnd 0%nat) p) as [d | ] eqn:E;
    [ | discriminate].
  intros [= <-]. split.
  - intros k. apply table_insert_one_keeps. by eapply map_plugin_keyed.
  - apply table_insert_one_length.
Qed.

(** What one ingestion can do to the world.  It never removes a record:
    every slug that was stored is still stored.  It adds at most one
    record.  And it either leaves the log alone or, leaving the table
    alone, adds one record to the log. *)
Theorem add_scraped_data_effects (slugify : string → string)
    (shuffled : list string) (plugin_data : plugin) (w w' : world)
    (Hadd : add_scraped_data slugify shuffled plugin_data w = Ok w') :
  (∀ k, is_Some (table_get (plugins_table w) k) →
        is_Some (table_get (plugins_table w') k)) ∧
  (length (plugins_table w) ≤ length (plugins_table w')
   ≤ length (plugins_table w) + 1)%nat ∧
  (log w' = log w ∨
   (plugins_table w' = plugins_table w ∧ ∃ r, log w' = (log w ++ [r])%list)).
Proof.
  unfold add_scraped_data in Hadd.
  destruct (_find_matching_vimorg_plugins plugin_data (plugins_table w))
    as [ [ | p0 [ | p1 rest ] ] | ].
  - destruct (insert _ _ _ _ _) as [t' | ] eqn:E; [ | discriminate].
    injection Hadd as <-. apply insert_one_effects in E as [Hk Hl].
    split; [done | split; [done | by left] ].
  - destruct (insert _ _ _ _ _) as [t' | ] eqn:E; [ | discriminate].
    injection Hadd as <-. apply insert_one_effects in E as [Hk Hl].
    split; [done | split; [done | by left] ].
  - destruct (mapM _ _) as [found | ]; [ | discriminate].
    injection Hadd as <-. cbn [plugins_table log].
    split; [done | split; [lia | right; split; [done | by eexists] ] ].
  - destruct (insert _ _ _ _ _) as [t' | ] eqn:E; [ | discriminate].
    injection Hadd as <-. apply insert_one_effects in E as [Hk Hl].
    split; [done | split; [done | by left] ].
Qed.

Lemma add_scraped_data_effects_witness :
  is_Some (table_get (python_table
                        ++ [new_record "nerdtree-all-too-well" github_scrape])
             (VStr "python-enchanted")).
Proof.
  assert (Hadd : add_scraped_data slugify_sample slug_suffixes github_scrape
                   (World python_table [])
                 = Ok (World (python_table
                                ++ [new_record "nerdtree-all-too-well"
                                      github_scrape])%list []))
    by reflexivity.
  apply (proj1 (add_scraped_data_effects slugify_sample slug_suffixes
                  github_scrape (World python_table []) _ Hadd)).
  by eexists.
Defined.

(* ===================================================================== *)
(** * Further properties of the search index                              *)
(* ===================================================================== *)

(** ** Lower case *)

Lemma lower_ascii_idemp (c : ascii) : lower_ascii (lower_ascii c) = lower_ascii c.
Proof. by destruct c as [[] [] [] [] [] [] [] []]. Qed.

Lemma str_lower_idemp (s : string) : str_lower (str_lower s) = str_lower s.
Proof.
  induction s as [ | c s IH ]; simpl; [done | ].
  by rewrite lower_ascii_idemp, IH.
Qed.

Section Lowercase.

Context `{T : Text}.

(** Lowering what is lowered changes nothing. *)
Hypothesis lower_idemp : ∀ s, lower (lower s) = lower s.

Lemma mapM_lower_token_lowered (l : list value) (lowered : list string) :
  mapM lower_token l = Ok lowered → Forall (λ w, lower w = w) lowered.
Proof.
  intros H. apply mapM_result_Forall2 in H.
  induction H as [ | v w l lowered Hv _ IH ]; constructor; [ | done].
  destruct v; try discriminate. injection Hv as <-. apply lower_idemp.
Qed.

Lemma tokens_loop_lowered (p : plugin) (fields : list string)
    (acc tokens : gset string) :
  (∀ w, w ∈ acc → lower w = w) →
  tokens_loop p fields acc = Ok tokens →
  ∀ w, w ∈ tokens → lower w = w.
Proof.
  revert acc. induction fields as [ | f fields IH ]; intros acc Hacc; simpl.
  - by intros [= <-].
  - destruct (p !! f) as [v | ]; [ | by apply IH].
    destruct (tokens_list_of f v) as [tokens_list | ]; [ | discriminate].
    simpl. destruct (mapM lower_token tokens_list) as [lowered | ] eqn:E;
      [ | discriminate].
    simpl. apply IH. intros w Hw. apply elem_of_union in Hw as [Hw | Hw].
    + by apply Hacc.
    + apply elem_of_list_to_set in Hw.
      apply mapM_lower_token_lowered in E. rewrite Forall_forall in E.
      by apply E.
Qed.

End Lowercase.

(** Every keyword is in lower case: for text whose [lower()] leaves
    lowered text as it is, each token of the set that tokenization
    returns is left as it is by [lower()]. *)
Theorem _get_search_tokens_for_plugin_lowercase `{T : Text} (p : plugin)
    (tokens : gset string)
    (Hidem : ∀ s, lower (lower s) = lower s)
    (Htokens : _get_search_tokens_for_plugin p = Ok tokens) :
  ∀ w, w ∈ tokens → lower w = w.
Proof.
  apply (tokens_loop_lowered Hidem p search_fields ∅); [ | done].
  intros w Hw. by apply not_elem_of_empty in Hw.
Qed.

Lemma _get_search_tokens_for_plugin_lowercase_witness :
  (∀ s, str_lower (str_lower s) = str_lower s) ∧
  @_get_search_tokens_for_plugin str_text foo_bar
  = Ok {[ "foo"; "bar"; "autocomplete"; "c/c++" ]} ∧
  ∀ w, w ∈ ({[ "foo"; "bar"; "autocomplete"; "c/c++" ]} : gset string) →
       str_lower w = w.
Proof.
  assert (H : @_get_search_tokens_for_plugin str_text foo_bar
              = Ok {[ "foo"; "bar"; "autocomplete"; "c/c++" ]})
    by (vm_compute; reflexivity).
  split; [apply str_lower_idemp | split; [exact H | ] ].
  exact (@_get_search_tokens_for_plugin_lowercase str_text foo_bar _
           str_lower_idemp H).
Defined.

(** ** Failure of the build *)

Lemma mapM_result_raise {A B : Type} (f : A → result B) (l : list A)
    (P : error → Prop) :
  (∀ x e, x ∈ l → f x = Raise e → P e) →
  Exists (λ x, ∃ e, f x = Raise e) l →
  ∃ e, mapM f l = Raise e ∧ P e.
Proof.
  intros HP Hex. induction l as [ | x l IH ]; [by inversion Hex | ].
  rewrite mapM_result_cons. destruct (f x) as [y | e] eqn:E.
  - destruct IH as (e & He & HPe).
    + intros x' e' Hx'. apply HP. set_solver.
    + inversion Hex as [ ? ? [e' He'] | ? ? Hl ]; subst; [congruence | done].
    + exists e. by rewrite He.
  - exists e. split; [done | ]. apply (HP x e); [set_solver | done].
Qed.

Lemma sort_key_raise (p : plugin) (e : error) :
  sort_key p = Raise e → e = TypeError.
Proof.
  unfold sort_key, py_neg.
  destruct (get_default p "plugin_manager_users" (VInt 0));
    destruct (get_default p "github_stars" (VInt 0));
    destruct (get_default p "vimorg_rating" (VInt 0));
    simpl; intros [= <-]; done.
Qed.

Lemma sort_key_ok_int (p : plugin) (k : Z * Z * Z) (f : string) :
  sort_key p = Ok k →
  f ∈ ["plugin_manager_users"; "github_stars"; "vimorg_rating"] →
  ∃ z, get_default p f (VInt 0) = VInt z.
Proof.
  unfold sort_key, py_neg. intros Hk Hf.
  destruct (get_default p "plugin_manager_users" (VInt 0)) as [ | a | | ] eqn:Ea;
    try discriminate.
  destruct (get_default p "github_stars" (VInt 0)) as [ | b | | ] eqn:Eb;
    try discriminate.
  destruct (get_default p "vimorg_rating" (VInt 0)) as [ | c | | ] eqn:Ec;
    try discriminate.
  repeat (apply elem_of_cons in Hf as [-> | Hf]);
    [by exists a | by exists b | by exists c | by apply elem_of_nil in Hf].
Qed.

Lemma sort_key_bad_count (d : plugin) :
  bad_count d → sort_key (pluck plucked_fields d) = Raise TypeError.
Proof.
  intros (f & v & Hf & Hv & Hint).
  destruct (sort_key (pluck plucked_fields d)) as [k | e] eqn:E;
    [ | by rewrite (sort_key_raise _ _ E) ].
  exfalso. destruct (sort_key_ok_int _ k f E Hf) as [z Hz].
  assert (Hp : pluck plucked_fields d !! f = Some v).
  { rewrite lookup_pluck, decide_True; [done | ].
    repeat (apply elem_of_cons in Hf as [-> | Hf]);
      [ | | | by apply elem_of_nil in Hf ];
      apply list_elem_of_In; cbn; tauto. }
  unfold get_default in Hz. rewrite Hp in Hz. by destruct (Hint z).
Qed.

Lemma search_field_plucked (f : string) :
  f ∈ search_fields → f ∈ plucked_fields.
Proof.
  intros Hf.
  repeat (apply elem_of_cons in Hf as [-> | Hf]);
    try (by apply elem_of_nil in Hf); apply list_elem_of_In; cbn; tauto.
Qed.

Lemma pluck_counts_are_int (d : plugin) :
  counts_are_int d → counts_are_int (pluck plucked_fields d).
Proof.
  intros H f Hf. rewrite lookup_pluck. case_decide; [by apply H | done].
Qed.

Lemma pluck_lists_hold_text (d : plugin) :
  lists_hold_text d → lists_hold_text (pluck plucked_fields d).
Proof.
  intros H f l Hf. rewrite lookup_pluck. case_decide; [by apply H | done].
Qed.

Lemma pluck_bad_search_field (d : plugin) :
  bad_search_field d → bad_search_field (pluck plucked_fields d).
Proof.
  intros (f & v & Hf & Hv & Hn). exists f, v. split; [done | split; [ | done] ].
  rewrite lookup_pluck, decide_True; [done | by apply search_field_plucked].
Qed.

(** Tokenization of a record whose lists hold text either returns or
    raises the exception of the untokenizable field. *)
Lemma add_keywords_raise `{T : Text} (set_iter : gset string → list string) (p : plugin)
    (e : error) :
  lists_hold_text p → add_keywords set_iter p = Raise e →
  ∃ f, e = UntokenizableType f.
Proof.
  intros Htext. unfold add_keywords.
  destruct (search_fields_cases p) as [Hall | Hex].
  - by rewrite (_get_search_tokens_for_plugin_ok p Htext Hall).
  - destruct (tokens_loop_raise p search_fields ∅ Htext Hex) as (f & _ & Hf).
    unfold _get_search_tokens_for_plugin. rewrite Hf. intros [= <-].
    by exists f.
Qed.

Lemma add_keywords_bad_search_field `{T : Text} (set_iter : gset string → list string)
    (p : plugin) :
  lists_hold_text p → bad_search_field p →
  ∃ e, add_keywords set_iter p = Raise e.
Proof.
  intros Htext (f & v & Hf & Hv & Hn). unfold add_keywords.
  destruct (tokens_loop_raise p search_fields ∅ Htext) as (g & _ & Hg).
  - apply Exists_exists. exists f. split; [done | by exists v].
  - unfold _get_search_tokens_for_plugin. rewrite Hg. by eexists.
Qed.

(** One bad record fails the whole build.  If a stored record holds, for
    one of the three counts of the sort key, a value that is not a number
    (as [None] is), [get_search_index] raises a type error, whatever the
    other records are.  If all counts are numbers and the lists hold
    text, but a search field of some record holds a value that cannot be
    tokenized, it raises the exception of the untokenizable field. *)
Theorem get_search_index_fails `{T : Text}
    (set_iter : gset string → list string)
    (t : table) :
  (Exists bad_count t → get_search_index set_iter t = Raise TypeError) ∧
  (Forall counts_are_int t → Forall lists_hold_text t →
   Exists bad_search_field t →
   ∃ f, get_search_index set_iter t = Raise (UntokenizableType f)).
Proof.
  split.
  - intros Hbad. unfold get_search_index, sort_plugins.
    destruct (mapM_result_raise
                (λ p : plugin, k ← sort_key p; mret (k, p))
                (pluck plucked_fields <$> t) (λ e, e = TypeError))
      as (e & -> & ->); [ | | done].
    + intros p e _ Hp. destruct (sort_key p) as [k | e'] eqn:E;
        [discriminate | ].
      injection Hp as <-. by eapply sort_key_raise.
    + apply Exists_fmap. eapply Exists_impl; [exact Hbad | ].
      intros d Hd. simpl. rewrite (sort_key_bad_count d Hd). by eexists.
  - intros Hint Htext Hbad. unfold get_search_index.
    destruct (sort_plugins_total (pluck plucked_fields <$> t)) as [sorted E].
    { apply Forall_fmap. eapply Forall_impl; [exact Hint | ].
      intros d. apply pluck_counts_are_int. }
    rewrite E. apply sort_plugins_sorted in E as [Hperm _].
    assert (Htext' : Forall lists_hold_text sorted).
    { rewrite Hperm. apply Forall_fmap. eapply Forall_impl; [exact Htext | ].
      intros d. apply pluck_lists_hold_text. }
    destruct (mapM_result_raise (add_keywords set_iter) sorted
                (λ e, ∃ f, e = UntokenizableType f))
      as (e & He & f & ->).
    + intros p e Hp. rewrite Forall_forall in Htext'.
      by apply add_keywords_raise, Htext'.
    + rewrite Hperm. apply Exists_fmap.
      rewrite Exists_exists in Hbad. destruct Hbad as (d & Hd & Hbad).
      apply Exists_exists. exists d. split; [done | ]. simpl.
      apply add_keywords_bad_search_field.
      * apply pluck_lists_hold_text. rewrite Forall_forall in Htext.
        by apply Htext.
      * by apply pluck_bad_search_field.
    + by exists f.
Qed.

Lemma get_search_index_fails_witness :
  @get_search_index str_text elements (ranking_table ++ [starless])
  = Raise TypeError.
Proof.
  apply (proj1 (@get_search_index_fails str_text elements
                  (ranking_table ++ [starless]))).
  apply Exists_app. right. constructor.
  exists "github_stars", VNone.
  split; [apply list_elem_of_In; cbn; tauto | split; [reflexivity | done] ].
Defined.

(** The records of the index are projections: whenever the build
    returns, the index has one record for every record of the table, and
    a record of the index has no field but the plucked ones and the
    keywords, which are text; in particular it has no slug. *)
Theorem get_search_index_projection `{T : Text}
    (set_iter : gset string → list string)
    (t : table) (out : list plugin)
    (Hindex : get_search_index set_iter t = Ok out) :
  length out = length t ∧
  Forall (λ q : plugin,
            q !! "slug" = None ∧
            (∀ f, is_Some (q !! f) → f ∈ "keywords" :: plucked_fields) ∧
            ∃ s, q !! "keywords" = Some (VStr s)) out.
Proof.
  unfold get_search_index in Hindex.
  destruct (sort_plugins (pluck plucked_fields <$> t)) as [sorted | ] eqn:E;
    [ | discriminate].
  apply sort_plugins_sorted in E as [Hperm _].
  apply mapM_result_Forall2 in Hindex.
  split.
  - rewrite <- (Forall2_length _ _ _ Hindex), Hperm. apply length_fmap.
  - assert (Hplucked : Forall (λ p : plugin,
                          ∀ f, is_Some (p !! f) → f ∈ plucked_fields) sorted).
    { rewrite Hperm. apply Forall_fmap, Forall_forall. intros d _ f. simpl.
      rewrite lookup_pluck. case_decide; [done | by intros [? ?] ]. }
    clear Hperm. induction Hindex as [ | p q sorted out Hpq _ IH ];
      [constructor | ].
    apply Forall_cons in Hplucked as [Hp Hsorted].
    constructor; [ | by apply IH].
    unfold add_keywords in Hpq.
    destruct (_get_search_tokens_for_plugin p) as [tokens | ]; [ | discriminate].
    injection Hpq as <-. split; [ | split].
    + rewrite lookup_insert_ne by done.
      destruct (p !! "slug") as [v | ] eqn:Hs; [ | done].
      assert (Hin : "slug" ∈ plucked_fields) by (apply Hp; by eexists).
      exfalso. apply list_elem_of_In in Hin. cbn in Hin.
      repeat (destruct Hin as [Hin | Hin]; [discriminate | ]). done.
    + intros f Hf. destruct (decide (f = "keywords")) as [-> | Hne].
      * apply list_elem_of_here.
      * apply list_elem_of_further. apply Hp.
        by rewrite lookup_insert_ne in Hf.
    + eexists. apply lookup_insert_eq.
Qed.

Lemma get_search_index_total `{T : Text} (set_iter : gset string → list string)
    (t : table) :
  Forall indexable t → ∃ out, get_search_index set_iter t = Ok out.
Proof.
  intros Ht. unfold get_search_index.
  assert (Hp : Forall indexable (pluck plucked_fields <$> t)).
  { apply Forall_fmap. eapply Forall_impl; [exact Ht | ].
    intros d. apply pluck_indexable. }
  destruct (sort_plugins_total (pluck plucked_fields <$> t)) as [sorted E].
  { eapply Forall_impl; [exact Hp | ]. by intros d [? _]. }
  rewrite E. apply sort_plugins_sorted in E as [Hperm _].
  apply mapM_result_total. rewrite Hperm.
  eapply Forall_impl; [exact Hp | ].
  intros d (_ & Htext & Htok). by apply add_keywords_total.
Qed.

Lemma get_search_index_projection_witness :
  ∃ out, @get_search_index str_text elements ranking_table = Ok out ∧
         length out = 3%nat.
Proof.
  destruct (@get_search_index_total str_text elements ranking_table)
    as [out E].
  { unfold ranking_table.
    repeat (constructor; [apply indexable_ranked | ]). constructor. }
  exists out. split; [exact E | ].
  exact (proj1 (@get_search_index_projection str_text elements ranking_table
                  out E)).
Defined.

(* ===================================================================== *)
(** * Fields of merged and of inserted records                            *)
(* ===================================================================== *)

Lemma truthy_not_none (v : value) : truthy v = true → v ≠ VNone.
Proof. by destruct v. Qed.

Lemma py_max_cases (a b : value) : py_max a b = a ∨ py_max a b = b.
Proof. unfold py_max. destruct (py_gt b a); [by right | by left]. Qed.

Lemma py_min_cases (a b : value) : py_min a b = a ∨ py_min a b = b.
Proof. unfold py_min. destruct (py_lt b a); [by right | by left]. Qed.

Lemma merge_present (dict_a dict_b : plugin) (f : string) :
  (∃ v, present (_merge_dict_except_none dict_a dict_b) f v) ↔
  (∃ v, present dict_a f v) ∨ (∃ v, present dict_b f v).
Proof.
  unfold present. rewrite lookup_merge_dict_except_none.
  destruct (dict_b !! f) as [vb | ] eqn:Eb.
  - destruct (is_not_none vb) eqn:Hb.
    + apply is_not_none_true in Hb. split; [ | intros _; by exists vb ].
      intros _. right. by exists vb.
    + destruct vb; try discriminate. split.
      * intros (v & Hv & Hn). left. by exists v.
      * intros [(v & Hv & Hn) | (v & Hv & Hn)]; [by exists v | congruence].
  - split.
    + intros (v & Hv & Hn). left. by exists v.
    + intros [(v & Hv & Hn) | (v & Hv & Hn)]; [by exists v | discriminate].
Qed.

(** The merged record has a present value for exactly the fields for
    which the old or the new record has one: no field with a value is
    lost in a merge, and none appears that neither record has. *)
Theorem update_plugin_fields (old new : plugin) (f : string) :
  (∃ v, present (update_plugin old new) f v) ↔
  (∃ v, present old f v) ∨ (∃ v, present new f v).
Proof.
  assert (Hover : (∃ v, present (overlay old new) f v) ↔
                  (∃ v, present old f v) ∨ (∃ v, present new f v)).
  { unfold overlay. destruct (is_more_authoritative old new);
      rewrite merge_present; tauto. }
  assert (Hstamp : ∀ (g : string) (pick : value → value → value),
            (∀ a b, pick a b = a ∨ pick a b = b) →
            truthy (get old g) && truthy (get new g) = true →
            (∃ v, present old g v) ∧
            pick (get old g) (get new g) ≠ VNone).
  { intros g pick Hpick Hg. apply andb_true_iff in Hg as [Ho Hn]. split.
    - exists (get old g).
      split; [by apply truthy_get_lookup | by apply truthy_not_none].
    - destruct (Hpick (get old g) (get new g)) as [-> | ->];
        by apply truthy_not_none. }
  unfold present at 1. rewrite update_plugin_lookup.
  case_decide as Hc; [subst f | case_decide as Hu; [subst f | exact Hover] ].
  - destruct (truthy (get old "created_at") && truthy (get new "created_at"))
      eqn:E; [ | exact Hover].
    destruct (Hstamp "created_at" py_min py_min_cases E) as [Hold Hne].
    split; [by left | ]. intros _. by eexists.
  - destruct (truthy (get old "updated_at") && truthy (get new "updated_at"))
      eqn:E; [ | exact Hover].
    destruct (Hstamp "updated_at" py_max py_max_cases E) as [Hold Hne].
    split; [by left | ]. intros _. by eexists.
Qed.

Lemma update_plugin_fields_witness :
  ∃ v, present (update_plugin syntastic_author syntastic_mirror) "vimorg_id" v.
Proof.
  apply (proj2 (update_plugin_fields syntastic_author syntastic_mirror
                  "vimorg_id")).
  right. exists (VStr "2736"). split; [reflexivity | discriminate].
Defined.

(** What [insert] stores for a plugin without slug.  The plugin goes in
    behind the stored documents, as the document that has the generated
    slug, the normalized name of the plugin or else the placeholder, and
    for every other field the value that the plugin has for it, even
    [None], the default of the schema standing in only where the plugin
    does not have the key. *)
Theorem insert_new_record_fields (slugify : string → string)
    (rnd : nat → list string) (p : plugin) (upsert : bool) (t : table)
    (slug : string)
    (Hslug : absent_or_empty p "slug")
    (Hgen : _generate_unique_slug slugify t (rnd 0%nat) p = Ok slug) :
  ∃ d, insert slugify rnd [p] upsert t = Ok (t ++ [d])%list ∧
       d !! "slug" = Some (VStr slug) ∧
       d !! "normalized_name"
       = (if truthy (get p "normalized_name") then p !! "normalized_name"
          else Some (VStr "meredith grey swift")) ∧
       ∀ f, f ≠ "slug" → f ≠ "normalized_name" →
            d !! f = match p !! f with
                     | Some v => Some v
                     | None => _ROW_SCHEMA !! f
                     end.
Proof.
  exists (new_record slug p). split; [by apply insert_generated | ].
  split; [apply new_record_lookup_slug | split].
  - rewrite lookup_new_record. rewrite decide_False by done.
    by rewrite decide_True.
  - intros f H1 H2. rewrite lookup_new_record. by rewrite !decide_False.
Qed.

Lemma insert_new_record_fields_witness :
  ∃ d, insert slugify_sample (λ _, slug_suffixes)
         [<["github_stars" := VNone]> github_scrape] false syntastic_table
       = Ok (syntastic_table ++ [d])%list ∧
       d !! "github_stars" = Some VNone ∧
       d !! "vimorg_rating" = Some (VInt 0).
Proof.
  assert (Hslug : absent_or_empty (<["github_stars" := VNone]> github_scrape)
                    "slug") by reflexivity.
  assert (Hgen : _generate_unique_slug slugify_sample syntastic_table
                   slug_suffixes (<["github_stars" := VNone]> github_scrape)
                 = Ok "nerdtree") by reflexivity.
  destruct (insert_new_record_fields slugify_sample (λ _, slug_suffixes)
              (<["github_stars" := VNone]> github_scrape) false
              syntastic_table "nerdtree" Hslug Hgen)
    as (d & Hins & _ & _ & Hfields).
  exists d. split; [exact Hins | split].
  - rewrite Hfields by discriminate. reflexivity.
  - rewrite Hfields by discriminate. reflexivity.
Defined.

(** [_slug_taken] tells whether a document is stored under the slug. *)
Theorem _slug_taken_iff (t : table) (slug : string) :
  _slug_taken t slug = true ↔ ∃ d, d ∈ t ∧ d !! "slug" = Some (VStr slug).
Proof.
  split.
  - intros H. destruct (table_get t (VStr slug)) as [d | ] eqn:E.
    + exists d. by apply table_get_Some.
    + unfold _slug_taken in H. rewrite E in H. discriminate.
  - intros (d & Hin & Hd).
    destruct (table_get_elem t d (VStr slug) Hin Hd) as [d' Hd'].
    by apply (_slug_taken_stored t slug d').
Qed.

(* ===================================================================== *)
(** * The keywords text                                                   *)
(* ===================================================================== *)

Lemma append_cons (c : ascii) (s t : string) :
  (String c s ++ t)%string = String c (s ++ t)%string.
Proof. reflexivity. Qed.

Lemma append_nil_l (t : string) : ("" ++ t)%string = t.
Proof. reflexivity. Qed.

Lemma append_nil_r (s : string) : (s ++ "")%string = s.
Proof.
  induction s as [ | c s IH ]; [done | ]. by rewrite append_cons, IH.
Qed.

Lemma append_assoc (s t u : string) :
  ((s ++ t) ++ u)%string = (s ++ (t ++ u))%string.
Proof.
  induction s as [ | c s IH ]; [done | ]. by rewrite !append_cons, IH.
Qed.

(** ** Characters *)

Lemma graphic_char_not_space (c : ascii) :
  graphic_char c = true → is_space c = false.
Proof. by destruct c as [[] [] [] [] [] [] [] []]. Qed.

Lemma graphic_char_plain (c : ascii) :
  graphic_char c = true → plain_char c = true.
Proof. by destruct c as [[] [] [] [] [] [] [] []]. Qed.

Lemma plain_char_graphic (c : ascii) :
  plain_char c = true → is_space c = false → graphic_char c = true.
Proof. by destruct c as [[] [] [] [] [] [] [] []]. Qed.

Lemma graphic_char_lower_ascii (c : ascii) :
  graphic_char (lower_ascii c) = graphic_char c.
Proof. by destruct c as [[] [] [] [] [] [] [] []]. Qed.

(** ** Texts *)

Lemma graphic_spaceless (s : string) : graphic s = true → spaceless s = true.
Proof.
  induction s as [ | c s IH ]; [done | ]. simpl.
  intros [Hc Hs]%andb_true_iff.
  by rewrite (graphic_char_not_space c Hc), IH.
Qed.

Lemma graphic_plain (s : string) : graphic s = true → plain s = true.
Proof.
  induction s as [ | c s IH ]; [done | ]. simpl.
  intros [Hc Hs]%andb_true_iff.
  by rewrite (graphic_char_plain c Hc), IH.
Qed.

Lemma graphic_append (s t : string) :
  graphic (s ++ t) = graphic s && graphic t.
Proof.
  induction s as [ | c s IH ]; [done | ].
  rewrite append_cons. simpl. by rewrite IH, andb_assoc.
Qed.

Lemma plain_append (s t : string) : plain (s ++ t) = plain s && plain t.
Proof.
  induction s as [ | c s IH ]; [done | ].
  rewrite append_cons. simpl. by rewrite IH, andb_assoc.
Qed.

Lemma graphic_str_lower (s : string) : graphic (str_lower s) = graphic s.
Proof.
  induction s as [ | c s IH ]; [done | ].
  simpl. by rewrite graphic_char_lower_ascii, IH.
Qed.

Lemma str_lower_word (s : string) : word s → word (str_lower s).
Proof.
  intros [Hne Hs]. split; [by destruct s | by rewrite graphic_str_lower].
Qed.

Lemma word_plain (s : string) : word s → plain s = true.
Proof. intros [_ Hs]. by apply graphic_plain. Qed.

(** ** Splitting a byte string *)

Lemma split_from_cons (cur : string) (c : ascii) (s : string) :
  split_from cur (String c s)
  = if is_space c
    then if String.eqb cur "" then split_from "" s else cur :: split_from "" s
    else split_from (cur ++ String c "") s.
Proof. reflexivity. Qed.

(** Reading a text without whitespace adds it to the run read so far. *)
Lemma split_from_spaceless (cur w rest : string) :
  spaceless w = true →
  split_from cur (w ++ rest) = split_from (cur ++ w) rest.
Proof.
  revert cur. induction w as [ | c w IH ]; intros cur Hw.
  - by rewrite append_nil_l, append_nil_r.
  - simpl in Hw. apply andb_true_iff in Hw as [Hc Hw].
    apply negb_true_iff in Hc.
    rewrite append_cons, split_from_cons, Hc, IH by done.
    by rewrite append_assoc.
Qed.

(** Splitting what [join] put together from words gives the words. *)
Lemma str_split_join (l : list string) :
  Forall word l → str_split (join " " l) = l.
Proof.
  unfold str_split. induction 1 as [ | x l [Hx Hg] Hl IH ]; [done | ].
  apply graphic_spaceless in Hg.
  destruct l as [ | y l ].
  - cbn [join]. rewrite <- (append_nil_r x) at 1.
    rewrite split_from_spaceless, append_nil_l by done.
    destruct x; [done | reflexivity].
  - change (join " " (x :: y :: l))
      with (x ++ (String " " (join " " (y :: l))))%string.
    rewrite split_from_spaceless, append_nil_l by done.
    rewrite split_from_cons. change (is_space " ") with true. cbn iota.
    apply String.eqb_neq in Hx. by rewrite Hx, IH.
Qed.

(** What [join] puts together from words is plain text. *)
Lemma plain_join (l : list string) :
  Forall word l → plain (join " " l) = true.
Proof.
  induction 1 as [ | x l Hx Hl IH ]; [done | ].
  destruct l as [ | y l ]; [by apply word_plain | ].
  change (join " " (x :: y :: l))
    with (x ++ (String " " (join " " (y :: l))))%string.
  rewrite plain_append, (word_plain x Hx).
  change (plain (String " " (join " " (y :: l))))
    with (plain_char " " && plain (join " " (y :: l))).
  by rewrite IH.
Qed.

(** The runs of a plain text are words. *)
Lemma split_from_words (cur s : string) :
  graphic cur = true → plain s = true → Forall word (split_from cur s).
Proof.
  revert cur. induction s as [ | c s IH ]; intros cur Hcur Hs.
  - simpl. destruct (String.eqb_spec cur ""); by repeat constructor.
  - simpl in Hs. apply andb_true_iff in Hs as [Hc Hs].
    rewrite split_from_cons. destruct (is_space c) eqn:Hsp.
    + destruct (String.eqb_spec cur ""); [by apply IH | ].
      constructor; [done | by apply IH].
    + apply IH; [ | done]. rewrite graphic_append, Hcur. simpl.
      by rewrite (plain_char_graphic c Hc Hsp).
Qed.

Lemma str_split_words (s : string) :
  plain s = true → Forall word (str_split s).
Proof. by apply split_from_words. Qed.

(** ** The tokens of a record of plain text *)

Section PlainText.

Context `{T : Text}.

Hypothesis Hplain : agrees_on_plain.

Lemma lower_word (s : string) : word s → word (lower s).
Proof.
  intros Hs. rewrite (proj1 (Hplain s (word_plain s Hs))).
  by apply str_lower_word.
Qed.

Lemma split_words (s : string) : plain s = true → Forall word (split s).
Proof.
  intros Hs. rewrite (proj2 (Hplain s Hs)). by apply str_split_words.
Qed.

Lemma split_join (l : list string) :
  Forall word l → split (join " " l) = l.
Proof.
  intros Hl. rewrite (proj2 (Hplain _ (plain_join l Hl))).
  by apply str_split_join.
Qed.

Lemma mapM_lower_token_words (l : list value) (lowered : list string) :
  Forall (λ v, ∃ s, v = VStr s ∧ word s) l →
  mapM lower_token l = Ok lowered → Forall word lowered.
Proof.
  intros Hl H. apply mapM_result_Forall2 in H.
  induction H as [ | v w l lowered Hv _ IH ]; [constructor | ].
  apply Forall_cons in Hl as [(s & -> & Hs) Hl].
  injection Hv as <-. constructor; [by apply lower_word | by apply IH].
Qed.

Lemma tokens_loop_words (p : plugin) (fields : list string)
    (acc tokens : gset string) :
  (∀ f s, f ∈ fields → p !! f = Some (VStr s) → plain s = true) →
  (∀ f l, f ∈ fields → p !! f = Some (VList l) →
          Forall (λ v, ∃ s, v = VStr s ∧ word s) l) →
  (∀ w, w ∈ acc → word w) →
  tokens_loop p fields acc = Ok tokens →
  ∀ w, w ∈ tokens → word w.
Proof.
  revert acc.
  induction fields as [ | f fields IH ]; intros acc Hs Hl Hacc; simpl.
  - by intros [= <-].
  - assert (Hrests : ∀ g s, g ∈ fields → p !! g = Some (VStr s) →
                            plain s = true)
      by (intros g s Hg; apply Hs; by apply list_elem_of_further).
    assert (Hrestl : ∀ g l, g ∈ fields → p !! g = Some (VList l) →
                            Forall (λ v, ∃ s, v = VStr s ∧ word s) l)
      by (intros g l Hg; apply Hl; by apply list_elem_of_further).
    destruct (p !! f) as [v | ] eqn:Ef; [ | by apply IH].
    destruct (tokens_list_of f v) as [tokens_list | ] eqn:Et; [ | discriminate].
    simpl. destruct (mapM lower_token tokens_list) as [lowered | ] eqn:E;
      [ | discriminate].
    simpl. apply IH; [done | done | ].
    intros w Hw. apply elem_of_union in Hw as [Hw | Hw]; [by apply Hacc | ].
    apply elem_of_list_to_set in Hw.
    assert (Hwords : Forall word lowered).
    { apply (mapM_lower_token_words tokens_list); [ | done].
      destruct v as [ | z | s | l ]; try discriminate; injection Et as <-.
      - constructor.
      - apply Forall_fmap.
        eapply Forall_impl;
          [apply split_words, (Hs f); [apply list_elem_of_here | done] | ].
        intros x Hx. by exists x.
      - apply (Hl f); [apply list_elem_of_here | done]. }
    rewrite Forall_forall in Hwords. by apply Hwords.
Qed.

End PlainText.

(** The keywords text can be read back.  Take text that does on plain
    text what byte strings do, a record whose text-valued search fields
    are plain text and whose tags and other list-valued search fields
    hold words, and any order in which the set of tokens hands out its
    elements.  Then [split()] of the text stored under ['keywords']
    gives exactly the tokens. *)
Theorem add_keywords_split `{T : Text} (set_iter : gset string → list string)
    (p q : plugin)
    (Hplain : agrees_on_plain)
    (Hiter : ∀ (s : gset string) (w : string), w ∈ set_iter s ↔ w ∈ s)
    (Htext : plain_fields p)
    (Hwords : lists_hold_words p)
    (Hq : add_keywords set_iter p = Ok q) :
  ∃ (keywords : string) (tokens : gset string),
    q !! "keywords" = Some (VStr keywords) ∧
    _get_search_tokens_for_plugin p = Ok tokens ∧
    list_to_set (split keywords) = tokens.
Proof.
  unfold add_keywords in Hq.
  destruct (_get_search_tokens_for_plugin p) as [tokens | ] eqn:E;
    [ | discriminate].
  injection Hq as <-.
  exists (join " " (set_iter tokens)), tokens.
  split; [apply lookup_insert_eq | split; [done | ] ].
  rewrite (split_join Hplain).
  - apply set_eq. intros w. rewrite elem_of_list_to_set. apply Hiter.
  - apply Forall_forall. intros w Hw. apply Hiter in Hw.
    by apply (tokens_loop_words Hplain p search_fields ∅ tokens).
Qed.

Lemma lists_hold_words_foo_bar : lists_hold_words foo_bar.
Proof.
  intros f l Hf Hl.
  repeat (apply elem_of_cons in Hf as [-> | Hf]);
    try (by apply elem_of_nil in Hf);
    vm_compute in Hl; try discriminate; injection Hl as <-.
  repeat constructor; eexists; (split; [reflexivity | by split]).
Defined.

Lemma plain_fields_foo_bar : plain_fields foo_bar.
Proof.
  intros f s Hf Hs.
  repeat (apply elem_of_cons in Hf as [-> | Hf]);
    try (by apply elem_of_nil in Hf);
    vm_compute in Hs; try discriminate; by injection Hs as <-.
Defined.

Lemma add_keywords_split_witness :
  ∃ (keywords : string) (tokens : gset string),
    @_get_search_tokens_for_plugin str_text foo_bar = Ok tokens ∧
    list_to_set (str_split keywords) = tokens.
Proof.
  destruct (@add_keywords str_text elements foo_bar) as [q | ] eqn:E.
  - destruct (@add_keywords_split str_text elements foo_bar q
                str_text_agrees_on_plain
                (λ s w, elem_of_elements s w) plain_fields_foo_bar
                lists_hold_words_foo_bar E)
      as (keywords & tokens & _ & Htokens & Hsplit).
    by exists keywords, tokens.
  - exfalso. unfold add_keywords in E.
    rewrite (@_get_search_tokens_for_plugin_ok str_text foo_bar
               lists_hold_text_foo_bar tokenizable_foo_bar) in E.
    discriminate.
Defined.
